(** * Slicer: automatic oversampling factor (vtkCalculateOversamplingFactor)

    A shallow embedding of
    [Libs/vtkSegmentationCore/vtkCalculateOversamplingFactor.cxx]:
    the size measure, the Mamdani style fuzzy inference
    ([DetermineOversamplingFactor]), the clipping of membership functions
    ([ClipMembershipFunction]) and the rescaling of an image geometry
    ([ApplyOversamplingOnImageGeometry]).

    Number model.  A finite C++ [double] is an exact rational [Q]: the
    rounding error and the range of the stored values are not modelled.
    Where a [double] is converted to an [int] the rounding decides the
    result, and there the product is the binary64 product, rounded to
    nearest even as [SpecFloat] specifies it.  The infinities and the NaN
    of IEEE 754 are values of the type [double]; a zero is [+0.0].  A C++
    [int] is a [Z] with the check that it fits 32 bits.  An execution that
    overflows an [int] or converts to [int] a [double] that is out of range
    or not finite (both undefined in C++) has no value in the model
    ([None]).  *)

From Stdlib Require Import ZArith QArith Qround Qpower Qminmax Qabs.
From Stdlib Require Import Bool List Lia Lqa Sorted SpecFloat.
Import ListNotations.
Open Scope Q_scope.

(** ** Doubles *)

(** [a < b] and [a > b] on doubles, as booleans. *)
Definition Qltb (a b : Q) : bool := negb (Qle_bool b a).
Definition Qgtb (a b : Q) : bool := Qltb b a.

(** [std::min(a, b)] is [(b < a) ? b : a]; [std::max(a, b)] is
    [(a < b) ? b : a]. *)
Definition std_min (a b : Q) : Q := if Qltb b a then b else a.
Definition std_max (a b : Q) : Q := if Qltb a b then b else a.

(** A [double] that may have left the rationals. *)
Inductive double : Type :=
| Num (q : Q)
| PosInf
| NegInf
| NaN.

(** [a / b] in IEEE 754 arithmetic, for finite [a] and [b] (a zero divisor
    is [+0.0] wherever the source divides). *)
Definition fdiv (a b : Q) : double :=
  if Qeq_bool b 0 then
    if Qeq_bool a 0 then NaN else if Qltb 0 a then PosInf else NegInf
  else Num (a / b).

(** [(-1.0) * d]. *)
Definition fneg (d : double) : double :=
  match d with
  | Num q => Num (-1 * q)
  | PosInf => NegInf
  | NegInf => PosInf
  | NaN => NaN
  end.

(** [a * b], [a / b], [a + b] and [a - b] on all doubles. *)
Definition dmul (a b : double) : double :=
  match a, b with
  | NaN, _ | _, NaN => NaN
  | Num x, Num y => Num (x * y)
  | Num x, PosInf | PosInf, Num x =>
      if Qeq_bool x 0 then NaN else if Qltb 0 x then PosInf else NegInf
  | Num x, NegInf | NegInf, Num x =>
      if Qeq_bool x 0 then NaN else if Qltb 0 x then NegInf else PosInf
  | PosInf, PosInf | NegInf, NegInf => PosInf
  | PosInf, NegInf | NegInf, PosInf => NegInf
  end.

Definition ddiv (a b : double) : double :=
  match a, b with
  | NaN, _ | _, NaN => NaN
  | Num x, Num y => fdiv x y
  | Num _, PosInf | Num _, NegInf => Num 0
  | PosInf, Num y => if Qltb y 0 then NegInf else PosInf
  | NegInf, Num y => if Qltb y 0 then PosInf else NegInf
  | _, _ => NaN
  end.

Definition dadd (a b : double) : double :=
  match a, b with
  | NaN, _ | _, NaN => NaN
  | Num x, Num y => Num (x + y)
  | PosInf, NegInf | NegInf, PosInf => NaN
  | PosInf, _ | _, PosInf => PosInf
  | NegInf, _ | _, NegInf => NegInf
  end.

Definition dsub (a b : double) : double :=
  match a, b with
  | NaN, _ | _, NaN => NaN
  | Num x, Num y => Num (x - y)
  | PosInf, PosInf | NegInf, NegInf => NaN
  | PosInf, _ | _, NegInf => PosInf
  | NegInf, _ | _, PosInf => NegInf
  end.

(** ** Ints

    [None] is an execution the C++ standard leaves undefined. *)
Definition INT_MIN : Z := (- 2 ^ 31)%Z.
Definition INT_MAX : Z := (2 ^ 31 - 1)%Z.

Definition fitsInt (z : Z) : bool := ((INT_MIN <=? z) && (z <=? INT_MAX))%Z.

Definition int_of_Z (z : Z) : option Z :=
  if fitsInt z then Some z else None.

Definition int_add (a b : Z) : option Z := int_of_Z (a + b).
Definition int_sub (a b : Z) : option Z := int_of_Z (a - b).
Definition int_mul (a b : Z) : option Z := int_of_Z (a * b).

Definition bind {A B : Type} (m : option A) (k : A -> option B) : option B :=
  match m with Some a => k a | None => None end.

Notation "x <- m ;; k" := (bind m (fun x => k))
  (at level 61, m at next level, right associativity).

(** [static_cast<int>] of an integral valued [double]; the conversion of
    an infinity or a NaN is undefined. *)
Definition static_cast_int (integral : option Z) : option Z :=
  z <- integral ;; int_of_Z z.

(** ** Rounded products

    [floor] and [ceil] of a product depend on how the product is rounded:
    0.7 * 10 is 7.0 in binary64, although the double nearest to 0.7 is
    below 0.7.  The product is computed on binary64 numbers, as
    [SpecFloat] specifies them. *)
Definition prec : Z := 53%Z.
Definition emax : Z := 1024%Z.

(** The conversion of an [int] to [double] is exact. *)
Definition binary64_of_int (z : Z) : spec_float :=
  binary_normalize prec emax z 0 false.

(** The binary64 number nearest to a rational: the number itself when it
    is a finite [double]. *)
Definition binary64_of_Q (q : Q) : spec_float :=
  let reduced := Qred q in
  SFdiv prec emax (binary64_of_int (Qnum reduced))
        (binary64_of_int (Zpos (Qden reduced))).

(** [factor * i] for a [double] and an [int], the [int] converted first. *)
Definition roundedProduct (factor : Q) (i : Z) : spec_float :=
  SFmul prec emax (binary64_of_Q factor) (binary64_of_int i).

(** [floor] and [ceil] of [math.h], as integers; none for an infinity or
    a NaN, which they return unchanged. *)
Definition floor (x : spec_float) : option Z :=
  match x with
  | S754_zero _ => Some 0%Z
  | S754_finite s m e =>
      let mantissa := if s then Zneg m else Zpos m in
      Some (match e with
            | Zneg p => mantissa / 2 ^ Zpos p
            | _ => mantissa * 2 ^ e
            end)%Z
  | _ => None
  end.

Definition ceil (x : spec_float) : option Z :=
  option_map Z.opp (floor (SFopp x)).

(** ** Diagnostics

    [vtkErrorMacro], [vtkWarningWithObjectMacro] and [vtkDebugMacro] write to
    VTK's diagnostic channel; the model records which statement was reached,
    in order. *)
Inductive Diagnostic : Type :=
| ErrorInvalidInputPolyData
| ErrorInvalidReferenceVolume
| ErrorInvalidMassProperties
| ErrorInvalidInputMeasures
| DebugVolumeMayBeInvalid
| DebugRelativeStructureSize
| DebugComplexityMeasure
| WarningUnreasonableFactor.

(** ** vtkPiecewiseFunction

    The VTK class the membership functions are instances of.  Only the
    members the source calls are modelled, for nodes that keep the default
    midpoint 0.5 and sharpness 0 (the source never changes them), where the
    function is piecewise linear; clamping is on, as it is by default. *)
Module vtkPiecewiseFunction.

Record Node : Type := mkNode { X : Q; Y : Q }.

Definition t : Type := list Node.

Definition New : t := [].

Definition GetSize (f : t) : nat := length f.

(** [GetNodeValue(index, val)] fills [val]; the buffer keeps its content
    when [index] is out of range. *)
Definition GetNodeValue (f : t) (index : nat) (val : Node) : Node :=
  nth index f val.

(** The first node whose [X] equals [x] is removed, if there is one. *)
Fixpoint RemovePoint (x : Q) (f : t) : t :=
  match f with
  | [] => []
  | n :: rest => if Qeq_bool (X n) x then rest else n :: RemovePoint x rest
  end.

(** [SortAndUpdateRange] sorts the nodes by [X] (a stable sort). *)
Fixpoint insertNode (n : Node) (f : t) : t :=
  match f with
  | [] => [n]
  | m :: rest => if Qltb (X n) (X m) then n :: f else m :: insertNode n rest
  end.

Definition SortAndUpdateRange (f : t) : t :=
  fold_left (fun sorted n => insertNode n sorted) f [].

(** [AddPoint(x, y)]: a node already at [x] is removed, the new node is
    appended and the nodes are sorted again. *)
Definition AddPoint (x y : Q) (f : t) : t :=
  SortAndUpdateRange (RemovePoint x f ++ [mkNode x y]).

Fixpoint replaceNode (index : nat) (n : Node) (f : t) : t :=
  match f, index with
  | [], _ => []
  | _ :: rest, O => n :: rest
  | m :: rest, S i => m :: replaceNode i n rest
  end.

(** [SetNodeValue(index, val)] overwrites the node and sorts again only
    when its [X] changed; an index out of range changes nothing. *)
Definition SetNodeValue (index : nat) (val : Node) (f : t) : t :=
  match nth_error f index with
  | None => f
  | Some old =>
      let f' := replaceNode index val f in
      if Qeq_bool (X old) (X val) then f' else SortAndUpdateRange f'
  end.

(** Linear interpolation between [n1] and the node that follows. *)
Definition interpolate (n1 n2 : Node) (x : Q) : Q :=
  let s := (x - X n1) / (X n2 - X n1) in
  (1 - s) * Y n1 + s * Y n2.

Fixpoint valueFrom (n1 : Node) (rest : list Node) (x : Q) : Q :=
  match rest with
  | [] => Y n1
  | n2 :: rest' =>
      if Qle_bool x (X n2) then interpolate n1 n2 x else valueFrom n2 rest' x
  end.

(** [GetValue(x)]: 0 without nodes, the value of the nearest end node
    outside the range of the nodes, the interpolated value inside. *)
Definition GetValue (f : t) (x : Q) : Q :=
  match f with
  | [] => 0
  | n1 :: rest => if Qle_bool x (X n1) then Y n1 else valueFrom n1 rest x
  end.

(** The shape of both node loops of the source:
    [for (i = 0; i < GetSize()-1; ++i)] reads nodes [i] and [i+1] and
    pushes what [body] yields for them. *)
Definition forEachSegment {A : Type} (f : t) (body : Node -> Node -> list A)
  : list A :=
  fold_left
    (fun out index =>
       let currentNode := GetNodeValue f index (mkNode 0 0) in
       let nextNode := GetNodeValue f (index + 1) (mkNode 0 0) in
       out ++ body currentNode nextNode)
    (seq 0 (GetSize f - 1)) [].

End vtkPiecewiseFunction.

Import vtkPiecewiseFunction.

(** ** Membership functions of [DetermineOversamplingFactor] *)

Definition sizeLarge : t :=
  AddPoint 2 0 (AddPoint 0.5 1 New).
Definition sizeMedium : t :=
  AddPoint 3 0 (AddPoint 2.5 1 (AddPoint 2 1 (AddPoint 0.5 0 New))).
Definition sizeSmall : t :=
  AddPoint 3.75 0 (AddPoint 3.25 1 (AddPoint 3 1 (AddPoint 2.5 0 New))).
Definition sizeVerySmall : t :=
  AddPoint 3.75 1 (AddPoint 3.25 0 New).

Definition complexityLow : t :=
  AddPoint 0.6 0 (AddPoint 0.2 1 New).
Definition complexityHigh : t :=
  AddPoint 0.6 1 (AddPoint 0.2 0 New).

Definition oversamplingLow : t :=
  AddPoint 0.25 0 (AddPoint (-0.75) 1 (AddPoint (-1.25) 1 New)).
Definition oversamplingNormal : t :=
  AddPoint 0.75 0 (AddPoint 0.25 1 (AddPoint 0.25 1 (AddPoint (-0.75) 0 New))).
Definition oversamplingHigh : t :=
  AddPoint 1.75 0 (AddPoint 1.25 1 (AddPoint 0.75 1 (AddPoint 0.25 0 New))).
Definition oversamplingVeryHigh : t :=
  AddPoint 2.25 1 (AddPoint 1.75 1 (AddPoint 1.25 0 New)).

(** ** ClipMembershipFunction *)

(** First loop: the parameter values strictly between two nodes where the
    membership is exactly [clipValue]. *)
Definition crossingOf (clipValue : Q) (currentNode nextNode : Node) : list Q :=
  if (Qltb (Y currentNode) clipValue && Qgtb (Y nextNode) clipValue)
     || (Qgtb (Y currentNode) clipValue && Qltb (Y nextNode) clipValue)
  then
    [ ((X nextNode - X currentNode) * (Y currentNode - clipValue))
        / (Y currentNode - Y nextNode) + X currentNode ]
  else [].

Definition newNodeParameterValues (membershipFunction : t) (clipValue : Q)
  : list Q :=
  forEachSegment membershipFunction (crossingOf clipValue).

(** Second loop: nodes that hold more than [clipValue] are moved down
    ([SetNodeValue] keeps the number of nodes, the bound of the loop). *)
Definition moveNodesDown (membershipFunction : t) (clipValue : Q) : t :=
  fold_left
    (fun f nodeIndex =>
       let currentNode := GetNodeValue f nodeIndex (mkNode 0 0) in
       if Qgtb (Y currentNode) clipValue
       then SetNodeValue nodeIndex (mkNode (X currentNode) clipValue) f
       else f)
    (seq 0 (GetSize membershipFunction)) membershipFunction.

Definition ClipMembershipFunction (membershipFunction : t) (clipValue : Q) : t :=
  if Qle_bool 1 clipValue then membershipFunction
  else
    let newNodes := newNodeParameterValues membershipFunction clipValue in
    let moved := moveNodesDown membershipFunction clipValue in
    fold_left (fun f point => AddPoint point clipValue f) newNodes moved.

(** ** DetermineOversamplingFactor *)

(** The clipping values of the six rules. *)
Record ClippingValues : Type := mkClippingValues {
  rule1_OversamplingVeryHighClippingValue : Q;
  rule2_OversamplingHighClippingValue : Q;
  rule3_OversamplingHighClippingValue : Q;
  rule4_OversamplingNormalClippingValue : Q;
  rule5_OversamplingNormalClippingValue : Q;
  rule6_OversamplingLowClippingValue : Q
}.

Definition ApplyRules (relativeStructureSize complexityMeasure : Q)
  : ClippingValues :=
  (* Fuzzify inputs *)
  let sizeLargeMembership := GetValue sizeLarge relativeStructureSize in
  let sizeMediumMembership := GetValue sizeMedium relativeStructureSize in
  let sizeSmallMembership := GetValue sizeSmall relativeStructureSize in
  let sizeVerySmallMembership := GetValue sizeVerySmall relativeStructureSize in
  let complexityLowMembership := GetValue complexityLow complexityMeasure in
  let complexityHighMembership := GetValue complexityHigh complexityMeasure in
  (* Apply rules and determine consequents *)
  {| rule1_OversamplingVeryHighClippingValue := sizeVerySmallMembership;
     rule2_OversamplingHighClippingValue :=
       std_min sizeSmallMembership complexityHighMembership;
     rule3_OversamplingHighClippingValue :=
       std_min sizeMediumMembership complexityHighMembership;
     rule4_OversamplingNormalClippingValue :=
       std_min sizeSmallMembership complexityLowMembership;
     rule5_OversamplingNormalClippingValue :=
       std_min sizeMediumMembership complexityLowMembership;
     rule6_OversamplingLowClippingValue := sizeLargeMembership |}.

(** The six clipped consequents, in the order they are pushed.  [DeepCopy]
    is the identity on values: clipping the copy leaves the definition
    untouched. *)
Definition Consequents (relativeStructureSize complexityMeasure : Q) : list t :=
  let rules := ApplyRules relativeStructureSize complexityMeasure in
  [ ClipMembershipFunction oversamplingVeryHigh
      (rule1_OversamplingVeryHighClippingValue rules);
    ClipMembershipFunction oversamplingHigh
      (rule2_OversamplingHighClippingValue rules);
    ClipMembershipFunction oversamplingHigh
      (rule3_OversamplingHighClippingValue rules);
    ClipMembershipFunction oversamplingNormal
      (rule4_OversamplingNormalClippingValue rules);
    ClipMembershipFunction oversamplingNormal
      (rule5_OversamplingNormalClippingValue rules);
    ClipMembershipFunction oversamplingLow
      (rule6_OversamplingLowClippingValue rules) ].

(** Area and centroid of the trapezoid between two nodes; nothing is pushed
    unless the area is positive. *)
Definition trapezoidOf (currentNode nextNode : Node) : list (Q * Q) :=
  let bottomRectangleArea :=
    (X nextNode - X currentNode) * std_min (Y nextNode) (Y currentNode) in
  let bottomRectangleCentroid := (X nextNode + X currentNode) / 2 in
  let '(topTriangleArea, topTriangleCentroid) :=
    if Qgtb (Y nextNode) (Y currentNode) then
      ((X nextNode - X currentNode) * (Y nextNode - Y currentNode) / 2,
       X currentNode + (X nextNode - X currentNode) * 2 / 3)
    else if Qltb (Y nextNode) (Y currentNode) then
      ((X nextNode - X currentNode) * (Y currentNode - Y nextNode) / 2,
       X currentNode + (X nextNode - X currentNode) / 3)
    else (0, 0) in
  let trapezoidArea := bottomRectangleArea + topTriangleArea in
  let trapezoidCentroid :=
    if Qgtb topTriangleArea 0 then
      (bottomRectangleArea * bottomRectangleCentroid
       + topTriangleArea * topTriangleCentroid)
      / (bottomRectangleArea + topTriangleArea)
    else bottomRectangleCentroid in
  if Qgtb trapezoidArea 0 then [(trapezoidArea, trapezoidCentroid)] else [].

Definition areaCentroidPairs (consequents : list t) : list (Q * Q) :=
  flat_map (fun currentMembershipFunction =>
              forEachSegment currentMembershipFunction trapezoidOf)
           consequents.

(** [(nominator, denominator)] after the loop over the pairs. *)
Definition sumComponents (pairs : list (Q * Q)) : Q * Q :=
  fold_left
    (fun sums trapezoid =>
       (fst sums + fst trapezoid * snd trapezoid, snd sums + fst trapezoid))
    pairs (0, 0).

Definition centerOfMassOf (pairs : list (Q * Q)) : double :=
  let sums := sumComponents pairs in
  fdiv (fst sums) (snd sums).

(** [pow(2.0, floor(centerOfMass + 0.5))]; on the values that are not finite
    [floor] is the identity, [pow(2, +inf)] is [+inf], [pow(2, -inf)] is 0
    and a NaN stays a NaN. *)
Definition defuzzify (centerOfMass : double) : double :=
  match centerOfMass with
  | Num c =>
      let calculatedOversamplingFactorPower := Qfloor (c + 0.5) in
      Num (2 ^ calculatedOversamplingFactorPower)
  | PosInf => PosInf
  | NegInf => Num 0
  | NaN => NaN
  end.

(** Lines 331 to 390: from the clipped consequents to the factor. *)
Definition factorOfConsequents (consequents : list t) : double :=
  defuzzify (centerOfMassOf (areaCentroidPairs consequents)).

Definition DetermineOversamplingFactor
  (relativeStructureSize complexityMeasure : Q) : double * list Diagnostic :=
  if Qeq_bool relativeStructureSize (-1) || Qeq_bool complexityMeasure (-1)
  then (Num 1, [ErrorInvalidInputMeasures])
  else
    (factorOfConsequents (Consequents relativeStructureSize complexityMeasure),
     []).

(** The rule table as the specification words it, to compare the source
    with. *)
Inductive SizeTerm : Type := VerySmall | Small | Medium | Large.
Inductive ComplexityTerm : Type := Low | High.
Inductive OversamplingTerm : Type :=
  OutputLow | OutputNormal | OutputHigh | OutputVeryHigh.

Record Rule : Type := mkRule {
  ifSize : SizeTerm;
  andComplexity : option ComplexityTerm;
  thenOversampling : OversamplingTerm
}.

Definition spec_rules : list Rule :=
  [ mkRule VerySmall None OutputVeryHigh;
    mkRule Small (Some High) OutputHigh;
    mkRule Medium (Some High) OutputHigh;
    mkRule Small (Some Low) OutputNormal;
    mkRule Medium (Some Low) OutputNormal;
    mkRule Large None OutputLow ].

Definition sizeFunction (s : SizeTerm) : t :=
  match s with
  | VerySmall => sizeVerySmall
  | Small => sizeSmall
  | Medium => sizeMedium
  | Large => sizeLarge
  end.

Definition complexityFunction (c : ComplexityTerm) : t :=
  match c with Low => complexityLow | High => complexityHigh end.

Definition oversamplingFunction (o : OversamplingTerm) : t :=
  match o with
  | OutputLow => oversamplingLow
  | OutputNormal => oversamplingNormal
  | OutputHigh => oversamplingHigh
  | OutputVeryHigh => oversamplingVeryHigh
  end.

Definition spec_strength (r : Rule) (sizeMeasure complexityMeasure : Q) : Q :=
  match andComplexity r with
  | None => GetValue (sizeFunction (ifSize r)) sizeMeasure
  | Some c =>
      Qmin (GetValue (sizeFunction (ifSize r)) sizeMeasure)
           (GetValue (complexityFunction c) complexityMeasure)
  end.

Definition spec_consequent (sizeMeasure complexityMeasure : Q) (r : Rule) : t :=
  ClipMembershipFunction (oversamplingFunction (thenOversampling r))
                         (spec_strength r sizeMeasure complexityMeasure).

(** Total area of the retained trapezoids. *)
Definition totalArea (consequents : list t) : Q :=
  snd (sumComponents (areaCentroidPairs consequents)).

(** ** The filter object and the image geometry *)

(** The input mesh; the modelled functions only observe whether it is
    present, its measures are read from [vtkMassProperties]. *)
Inductive vtkPolyData : Type := PolyData.

(** What [vtkMassProperties] has computed for the mesh. *)
Record vtkMassProperties : Type := mkMassProperties {
  GetVolume : Q;
  GetVolumeProjected : Q;
  GetNormalizedShapeIndex : Q
}.

(** [int extent[6]], [double spacing[3]], [double origin[3]] and the
    direction matrix of a [vtkOrientedImageData]. *)
Record vtkOrientedImageData : Type := mkImageData {
  Extent : list Z;
  Spacing : list double;
  Origin : list double;
  Directions : list (list Q)
}.

Definition SetExtent (extent : list Z) (image : vtkOrientedImageData) :=
  mkImageData extent (Spacing image) (Origin image) (Directions image).
Definition SetSpacing (spacing : list double) (image : vtkOrientedImageData) :=
  mkImageData (Extent image) spacing (Origin image) (Directions image).
Definition SetOrigin (origin : list double) (image : vtkOrientedImageData) :=
  mkImageData (Extent image) (Spacing image) (firstn 3 origin)
              (Directions image).

(** [vtkImageData::GetDimensions]: [extent[2i+1] - extent[2i] + 1]. *)
Definition dimensionOf (extent : list Z) (axis : nat) : option Z :=
  difference <- int_sub (nth (axis * 2 + 1) extent 0%Z)
                        (nth (axis * 2) extent 0%Z) ;;
  int_add difference 1.

Definition GetDimensions (image : vtkOrientedImageData) : option (list Z) :=
  d0 <- dimensionOf (Extent image) 0 ;;
  d1 <- dimensionOf (Extent image) 1 ;;
  d2 <- dimensionOf (Extent image) 2 ;;
  Some [d0; d1; d2].

Record vtkCalculateOversamplingFactor : Type := mkFilter {
  InputPolyData : option vtkPolyData;
  ReferenceGeometryImageData : option vtkOrientedImageData;
  MassPropertiesAlgorithm : option vtkMassProperties
}.

Definition CalculateComplexityMeasure (self : vtkCalculateOversamplingFactor)
  : Q * list Diagnostic :=
  match InputPolyData self with
  | None => (-1, [ErrorInvalidInputPolyData])
  | Some _ =>
      match MassPropertiesAlgorithm self with
      | None => (-1, [ErrorInvalidMassProperties])
      | Some massProperties =>
          let normalizedShapeIndex := GetNormalizedShapeIndex massProperties in
          let complexityMeasure := std_max (normalizedShapeIndex - 1) 0 in
          (complexityMeasure, [DebugComplexityMeasure])
      end
  end.

(** The sanity check of the structure volume against its projected volume:
    the diagnostics it writes. *)
Definition volumeSanityCheck (structureVolume structureProjectedVolume : Q)
  : list Diagnostic :=
  let error := structureVolume - structureProjectedVolume in
  if Qgtb (error * 10000) structureVolume then [DebugVolumeMayBeInvalid]
  else [].

Section ExternalFunctions.

(** [log10] of [math.h], on the extended doubles. *)
Variable log10 : double -> double.

(** [MultiplyPoint] of the matrix that
    [vtkOrientedImageData::GetImageToWorldMatrix] returns for an image
    (a class of this library whose source is not part of the embedded
    file): homogeneous image coordinates to world coordinates. *)
Variable ImageToWorldMultiplyPoint :
  vtkOrientedImageData -> list double -> list double.

Definition CalculateRelativeStructureSize
  (self : vtkCalculateOversamplingFactor)
  : option (double * list Diagnostic) :=
  match InputPolyData self with
  | None => Some (Num (-1), [ErrorInvalidInputPolyData])
  | Some _ =>
  match ReferenceGeometryImageData self with
  | None => Some (Num (-1), [ErrorInvalidReferenceVolume])
  | Some reference =>
  match MassPropertiesAlgorithm self with
  | None => Some (Num (-1), [ErrorInvalidMassProperties])
  | Some massProperties =>
      (* Get structure volume in mm^3 *)
      let structureVolume := GetVolume massProperties in
      (* Sanity check *)
      let structureProjectedVolume := GetVolumeProjected massProperties in
      let checked := volumeSanityCheck structureVolume structureProjectedVolume in
      (* Calculate reference volume in mm^3 *)
      dimensions <- GetDimensions reference ;;
      product01 <- int_mul (nth 0 dimensions 0%Z) (nth 1 dimensions 0%Z) ;;
      voxels <- int_mul product01 (nth 2 dimensions 0%Z) ;;
      let spacing := Spacing reference in
      let volumeVolume :=
        dmul (dmul (dmul (Num (inject_Z voxels)) (nth 0 spacing (Num 0)))
                   (nth 1 spacing (Num 0)))
             (nth 2 spacing (Num 0)) in
      let relativeStructureSize := ddiv (Num structureVolume) volumeVolume in
      (* Map raw measurement to the fuzzy input scale *)
      let sizeMeasure := fneg (log10 relativeStructureSize) in
      Some (sizeMeasure, checked ++ [DebugRelativeStructureSize])
  end end end.

(** One round of the loop over the axes: the new extent and spacing. *)
Definition scaleAxis (oversamplingFactor : Q) (extent : list Z)
  (spacing : list double) (axis : nat) : option (Z * Z * double) :=
  dimension <- dimensionOf extent axis ;;
  extentMin <- static_cast_int
                 (ceil (roundedProduct oversamplingFactor
                                       (nth (axis * 2) extent 0%Z))) ;;
  scaled <- static_cast_int
              (floor (roundedProduct oversamplingFactor dimension)) ;;
  sum <- int_add extentMin scaled ;;
  extentMax <- int_sub sum 1 ;;
  oldDimension <- dimensionOf extent axis ;;
  newDifference <- int_sub extentMax extentMin ;;
  newDimension <- int_add newDifference 1 ;;
  let newSpacing :=
    ddiv (dmul (nth axis spacing (Num 0)) (Num (inject_Z oldDimension)))
         (Num (inject_Z newDimension)) in
  Some (extentMin, extentMax, newSpacing).

(** The image after the call ([None] for a null pointer) and the
    diagnostics written. *)
Definition ApplyOversamplingOnImageGeometry
  (imageData : option vtkOrientedImageData) (oversamplingFactor : Q)
  : option (option vtkOrientedImageData * list Diagnostic) :=
  match imageData with
  | None => Some (None, [])
  | Some image =>
      (* Sanity check for sensible oversampling factor *)
      if Qltb oversamplingFactor 0.01 || Qgtb oversamplingFactor 100
      then Some (Some image, [WarningUnreasonableFactor])
      (* Apply oversampling if needed *)
      else if negb (Qeq_bool oversamplingFactor 1) then
        let extent := Extent image in
        let spacing := Spacing image in
        axis0 <- scaleAxis oversamplingFactor extent spacing 0 ;;
        axis1 <- scaleAxis oversamplingFactor extent spacing 1 ;;
        axis2 <- scaleAxis oversamplingFactor extent spacing 2 ;;
        let newExtent :=
          [ fst (fst axis0); snd (fst axis0); fst (fst axis1);
            snd (fst axis1); fst (fst axis2); snd (fst axis2) ] in
        let newSpacing := [ snd axis0; snd axis1; snd axis2 ] in
        let resized := SetSpacing newSpacing (SetExtent newExtent image) in
        (* Shift the origin by a half voxel size difference *)
        let ratio axis :=
          ddiv (nth axis spacing (Num 0)) (nth axis newSpacing (Num 0)) in
        let newOrigin_Image :=
          [ dmul (Num 0.5) (dsub (Num 1) (ratio 0%nat));
            dmul (Num 0.5) (dsub (Num 1) (ratio 1%nat));
            dmul (Num 0.5) (dsub (Num 1) (ratio 2%nat));
            Num 1 ] in
        let newOrigin_World :=
          ImageToWorldMultiplyPoint resized newOrigin_Image in
        Some (Some (SetOrigin newOrigin_World resized), [])
      else Some (Some image, [])
  end.

End ExternalFunctions.

(** An image to world transform to run the model on: the product of the
    point with the matrix whose first three columns are the directions
    scaled by the spacing and whose last column is the origin.  The grids
    of this file have the coordinate axes as directions. *)
Definition axisAlignedImageToWorld (image : vtkOrientedImageData)
  (point : list double) : list double :=
  let element row column :=
    dmul (Num (nth column (nth row (Directions image) []) 0))
         (nth column (Spacing image) (Num 0)) in
  let coordinate i := nth i point (Num 0) in
  let along row :=
    dadd (dadd (dadd (dmul (element row 0%nat) (coordinate 0%nat))
                     (dmul (element row 1%nat) (coordinate 1%nat)))
               (dmul (element row 2%nat) (coordinate 2%nat)))
         (dmul (nth row (Origin image) (Num 0)) (coordinate 3%nat)) in
  [ along 0%nat; along 1%nat; along 2%nat; coordinate 3%nat ].

(** ** Views used by the proofs *)

(** What [forEachSegment] computes, by recursion on the nodes. *)
Fixpoint segments {A : Type} (body : Node -> Node -> list A) (f : t) : list A :=
  match f with
  | a :: (b :: _) as rest => body a b ++ segments body rest
  | _ => []
  end.

(** What the second loop of [ClipMembershipFunction] does to one node. *)
Definition clampNode (clipValue : Q) (n : Node) : Node :=
  if Qgtb (Y n) clipValue then mkNode (X n) clipValue else n.

Definition Xlt (a b : Node) : Prop := X a < X b.

(** The x-coordinates of the control points are strictly increasing. *)
Fixpoint strictlyIncreasing (f : t) : Prop :=
  match f with
  | a :: (b :: _) as rest => X a < X b /\ strictlyIncreasing rest
  | _ => True
  end.

(** No control point's degree exceeds [s]. *)
Definition degreesAtMost (s : Q) (f : t) : Prop :=
  Forall (fun n => Y n <= s) f.

(** The six consequents before clipping, in rule order. *)
Definition canonicalConsequents : list t :=
  [ oversamplingVeryHigh; oversamplingHigh; oversamplingHigh;
    oversamplingNormal; oversamplingNormal; oversamplingLow ].

(** The grid of the scaling example: extent [0,9] on each axis, spacing 1. *)
Definition tenVoxelGrid : vtkOrientedImageData :=
  mkImageData [0; 9; 0; 9; 0; 9]%Z [Num 1; Num 1; Num 1]
              [Num 0; Num 0; Num 0] [[1; 0; 0]; [0; 1; 0]; [0; 0; 1]].

(** The volume of the reference grid, the number of voxels in unbounded
    arithmetic. *)
Definition referenceVolume (reference : vtkOrientedImageData) : double :=
  let extent := Extent reference in
  let dimension axis :=
    (nth (axis * 2 + 1) extent 0 - nth (axis * 2) extent 0 + 1)%Z in
  dmul (dmul (dmul (Num (inject_Z (dimension 0%nat * dimension 1%nat
                                   * dimension 2%nat)))
                   (nth 0 (Spacing reference) (Num 0)))
             (nth 1 (Spacing reference) (Num 0)))
       (nth 2 (Spacing reference) (Num 0)).

(** The [int] arithmetic of [GetDimensions] on one axis is defined. *)
Definition dimensionFits (extent : list Z) (axis : nat) : bool :=
  let lo := nth (axis * 2) extent 0%Z in
  let hi := nth (axis * 2 + 1) extent 0%Z in
  fitsInt (hi - lo) && fitsInt (hi - lo + 1).

(** The [int] arithmetic of the voxel count of a grid is defined. *)
Definition voxelCountFits (reference : vtkOrientedImageData) : bool :=
  let extent := Extent reference in
  let dimension axis :=
    (nth (axis * 2 + 1) extent 0 - nth (axis * 2) extent 0 + 1)%Z in
  dimensionFits extent 0 && dimensionFits extent 1 && dimensionFits extent 2
  && fitsInt (dimension 0%nat * dimension 1%nat)
  && fitsInt (dimension 0%nat * dimension 1%nat * dimension 2%nat).

(** The scaling of one axis is defined in C++: both conversions to [int]
    are of finite values in range, and no [int] of the loop overflows. *)
Definition axisScales (oversamplingFactor : Q) (extent : list Z) (axis : nat)
  : bool :=
  let lo := nth (axis * 2) extent 0%Z in
  let hi := nth (axis * 2 + 1) extent 0%Z in
  let dimension := (hi - lo + 1)%Z in
  match ceil (roundedProduct oversamplingFactor lo),
        floor (roundedProduct oversamplingFactor dimension) with
  | Some extentMin, Some scaled =>
      let extentMax := (extentMin + scaled - 1)%Z in
      let newDimension := (extentMax - extentMin + 1)%Z in
      dimensionFits extent axis
      && fitsInt extentMin && fitsInt scaled
      && fitsInt (extentMin + scaled) && fitsInt extentMax
      && fitsInt (extentMax - extentMin) && fitsInt newDimension
  | _, _ => false
  end.

(** A grid whose extents differ on the three axes, one of them a single
    slice. *)
Definition unevenGrid : vtkOrientedImageData :=
  mkImageData [-9; -4; 0; 4; 3; 3]%Z [Num 6; Num 5; Num 4]
              [Num 1; Num 2; Num 3] [[1; 0; 0]; [0; 1; 0]; [0; 0; 1]].

(** The double nearest to 0.7. *)
Definition nearest_0_7 : Q := 3152519739159347 # 4503599627370496.

(** The rational that a finite binary64 number stands for. *)
Definition valueOf (x : spec_float) : option Q :=
  match x with
  | S754_zero _ => Some 0
  | S754_finite s m e =>
      let mantissa := if s then Zneg m else Zpos m in
      Some (match e with
            | Zneg p => mantissa # (2 ^ p)%positive
            | _ => inject_Z (mantissa * 2 ^ e)
            end)
  | _ => None
  end.

(** The voxel count of the reference geometry of a filter, if it has
    one, is computed without [int] overflow. *)
Definition voxelCountDefined (filter : vtkCalculateOversamplingFactor) : bool :=
  match ReferenceGeometryImageData filter with
  | Some reference => voxelCountFits reference
  | None => true
  end.

(** A filter with all three inputs set. *)
Definition filterOf (reference : vtkOrientedImageData)
  (massProperties : vtkMassProperties) : vtkCalculateOversamplingFactor :=
  mkFilter (Some PolyData) (Some reference) (Some massProperties).

(** The strengths of the six rules, in rule order. *)
Definition strengths (rules : ClippingValues) : list Q :=
  [ rule1_OversamplingVeryHighClippingValue rules;
    rule2_OversamplingHighClippingValue rules;
    rule3_OversamplingHighClippingValue rules;
    rule4_OversamplingNormalClippingValue rules;
    rule5_OversamplingNormalClippingValue rules;
    rule6_OversamplingLowClippingValue rules ].

(** A function with a retained trapezoid: nodes in increasing order, no
    negative degree, a positive one, at least two nodes. *)
Definition hasArea (f : t) : Prop :=
  strictlyIncreasing f /\ Forall (fun n => 0 <= Y n) f
  /\ Exists (fun n => 0 < Y n) f /\ (2 <= length f)%nat.

(** A valid output membership function: degrees between 0 and 1, one of
    them 1, at least two nodes, increasing x. *)
Definition validOutput (f : t) : Prop :=
  strictlyIncreasing f /\ degreesAtMost 1 f
  /\ Forall (fun n => 0 <= Y n) f /\ Exists (fun n => Y n == 1) f
  /\ (2 <= length f)%nat.

(** ** CalculateOversamplingFactor *)

(** The filter together with its output and its logging flag. *)
Record FilterState : Type := mkFilterState {
  Filter : vtkCalculateOversamplingFactor;
  OutputOversamplingFactor : double;
  LogSpeedMeasurements : bool
}.

(** What [CalculateOversamplingFactor] writes itself, and what the
    functions it calls write. *)
Inductive DriverDiagnostic : Type :=
| DriverErrorInvalidInputPolyData
| DriverErrorInvalidReferenceVolume
| DriverErrorRelativeStructureSize
| DriverErrorComplexityMeasure
| DriverDebugFactorCalculated
| DriverDebugSpeedMeasurements
| Written (d : Diagnostic).

Definition SetMassPropertiesAlgorithm
  (massProperties : option vtkMassProperties)
  (filter : vtkCalculateOversamplingFactor) : vtkCalculateOversamplingFactor :=
  mkFilter (InputPolyData filter) (ReferenceGeometryImageData filter)
           massProperties.

Definition SetOutputOversamplingFactor (factor : double) (self : FilterState)
  : FilterState :=
  mkFilterState (Filter self) factor (LogSpeedMeasurements self).

Definition SetFilter (filter : vtkCalculateOversamplingFactor)
  (self : FilterState) : FilterState :=
  mkFilterState filter (OutputOversamplingFactor self)
                (LogSpeedMeasurements self).

(** [d == -1.0] on a [double]: false on the infinities and on NaN. *)
Definition isSentinel (d : double) : bool :=
  match d with Num q => Qeq_bool q (-1) | _ => false end.

(** *** Size measures that are not finite

    [CalculateRelativeStructureSize] returns an infinity or a NaN when the
    ratio of the volumes is zero, infinite or negative, and
    [CalculateOversamplingFactor] passes it on to
    [DetermineOversamplingFactor].  [GetValue] looks for the segment of
    its argument by stepping over the nodes while [x > node.X]: for +inf
    it ends behind the last node, for -inf and for a NaN (every comparison
    with a NaN is false) it stays before the first, and the value is the
    degree of that end node. *)
Definition GetValueAt (f : t) (x : double) : Q :=
  match x with
  | Num q => GetValue f q
  | PosInf => Y (last f (mkNode 0 0))
  | NegInf | NaN => Y (hd (mkNode 0 0) f)
  end.

Definition ApplyRulesAt (relativeStructureSize : double) (complexityMeasure : Q)
  : ClippingValues :=
  (* Fuzzify inputs *)
  let sizeLargeMembership := GetValueAt sizeLarge relativeStructureSize in
  let sizeMediumMembership := GetValueAt sizeMedium relativeStructureSize in
  let sizeSmallMembership := GetValueAt sizeSmall relativeStructureSize in
  let sizeVerySmallMembership :=
    GetValueAt sizeVerySmall relativeStructureSize in
  let complexityLowMembership := GetValue complexityLow complexityMeasure in
  let complexityHighMembership := GetValue complexityHigh complexityMeasure in
  (* Apply rules and determine consequents *)
  {| rule1_OversamplingVeryHighClippingValue := sizeVerySmallMembership;
     rule2_OversamplingHighClippingValue :=
       std_min sizeSmallMembership complexityHighMembership;
     rule3_OversamplingHighClippingValue :=
       std_min sizeMediumMembership complexityHighMembership;
     rule4_OversamplingNormalClippingValue :=
       std_min sizeSmallMembership complexityLowMembership;
     rule5_OversamplingNormalClippingValue :=
       std_min sizeMediumMembership complexityLowMembership;
     rule6_OversamplingLowClippingValue := sizeLargeMembership |}.

Definition ConsequentsAt (relativeStructureSize : double) (complexityMeasure : Q)
  : list t :=
  let rules := ApplyRulesAt relativeStructureSize complexityMeasure in
  [ ClipMembershipFunction oversamplingVeryHigh
      (rule1_OversamplingVeryHighClippingValue rules);
    ClipMembershipFunction oversamplingHigh
      (rule2_OversamplingHighClippingValue rules);
    ClipMembershipFunction oversamplingHigh
      (rule3_OversamplingHighClippingValue rules);
    ClipMembershipFunction oversamplingNormal
      (rule4_OversamplingNormalClippingValue rules);
    ClipMembershipFunction oversamplingNormal
      (rule5_OversamplingNormalClippingValue rules);
    ClipMembershipFunction oversamplingLow
      (rule6_OversamplingLowClippingValue rules) ].

(** [DetermineOversamplingFactor] at a size measure that may be infinite
    or a NaN; at a finite one it is [DetermineOversamplingFactor]. *)
Definition DetermineOversamplingFactorAt
  (relativeStructureSize : double) (complexityMeasure : Q)
  : double * list Diagnostic :=
  if isSentinel relativeStructureSize || Qeq_bool complexityMeasure (-1)
  then (Num 1, [ErrorInvalidInputMeasures])
  else
    (factorOfConsequents
       (ConsequentsAt relativeStructureSize complexityMeasure), []).

Section Driver.

(** [log10] of [math.h], and what [vtkMassProperties::Update] computes for
    a mesh. *)
Variable log10 : double -> double.
Variable Update : vtkPolyData -> vtkMassProperties.

(** The value returned, the filter afterwards and the diagnostics. *)
Definition CalculateOversamplingFactor (self : FilterState)
  : option (bool * FilterState * list DriverDiagnostic) :=
  (* Set a safe value to use even if the return value is not checked *)
  let self := SetOutputOversamplingFactor (Num 1) self in
  match InputPolyData (Filter self) with
  | None => Some (false, self, [DriverErrorInvalidInputPolyData])
  | Some mesh =>
  match ReferenceGeometryImageData (Filter self) with
  | None => Some (false, self, [DriverErrorInvalidReferenceVolume])
  | Some _ =>
      (* Create mass properties algorithm for common use *)
      let massProperties := Update mesh in
      let self :=
        SetFilter (SetMassPropertiesAlgorithm (Some massProperties)
                                              (Filter self)) self in
      (* Get relative structure size *)
      size <- CalculateRelativeStructureSize log10 (Filter self) ;;
      let relativeStructureSize := fst size in
      if isSentinel relativeStructureSize
      then Some (false, self,
                 map Written (snd size) ++ [DriverErrorRelativeStructureSize])
      else
        (* Get complexity measure *)
        let complexity := CalculateComplexityMeasure (Filter self) in
        let complexityMeasure := fst complexity in
        if Qeq_bool complexityMeasure (-1)
        then Some (false, self,
                   map Written (snd size) ++ map Written (snd complexity)
                   ++ [DriverErrorComplexityMeasure])
        else
          (* Determine crisp oversampling factor using fuzzy rules *)
          let determined :=
            DetermineOversamplingFactorAt relativeStructureSize
                                          complexityMeasure in
          let self := SetOutputOversamplingFactor (fst determined) self in
          let speed :=
            if LogSpeedMeasurements self then [DriverDebugSpeedMeasurements]
            else [] in
          (* Clean up *)
          let self :=
            SetFilter (SetMassPropertiesAlgorithm None (Filter self)) self in
          Some (true, self,
                map Written (snd size) ++ map Written (snd complexity)
                ++ map Written (snd determined)
                ++ [DriverDebugFactorCalculated] ++ speed)
  end end.

End Driver.

(** A stand-in for [log10] that is right at 0, 1, 10 and 100, to run the
    model on. *)
Definition log10AtPowers (d : double) : double :=
  match d with
  | Num q =>
      if Qeq_bool q 0 then NegInf
      else if Qeq_bool q 1 then Num 0
      else if Qeq_bool q 10 then Num 1
      else if Qeq_bool q 100 then Num 2
      else if Qeq_bool q (1 # 10) then Num (-1)
      else if Qeq_bool q (1 # 100) then Num (-2)
      else if Qeq_bool q (1 # 1000) then Num (-3)
      else NaN
  | _ => NaN
  end.

(** The nodes of a clipped function, left to right: each node moved down
    if need be, followed by the crossing towards the next node if there is
    one. *)
Fixpoint clipNodes (clipValue : Q) (f : t) : t :=
  match f with
  | [] => []
  | a :: rest =>
      clampNode clipValue a
      :: match rest with
         | [] => []
         | b :: _ =>
             map (fun point => mkNode point clipValue)
                 (crossingOf clipValue a b)
             ++ clipNodes clipValue rest
         end
  end.

(** * Proofs *)

(** ** Comparisons *)

Lemma Qltb_lt (a b : Q) : Qltb a b = true <-> a < b.
Proof.
  unfold Qltb. rewrite negb_true_iff. split; intro H.
  - apply Qnot_le_lt. intro Hle. apply Qle_bool_iff in Hle. congruence.
  - destruct (Qle_bool b a) eqn:E; [|reflexivity].
    apply Qle_bool_iff in E. lra.
Qed.

Lemma Qltb_ge (a b : Q) : Qltb a b = false <-> b <= a.
Proof.
  unfold Qltb. rewrite negb_false_iff. apply Qle_bool_iff.
Qed.

Lemma Qle_bool_gt (a b : Q) : Qle_bool a b = false <-> b < a.
Proof.
  rewrite <- Qltb_lt. unfold Qltb. rewrite negb_true_iff. tauto.
Qed.

Lemma Qeq_bool_same (a : Q) : Qeq_bool a a = true.
Proof. apply Qeq_bool_iff. reflexivity. Qed.

(** Case analysis on a comparison, leaving its meaning in the context. *)
Ltac cases_on b :=
  let E := fresh "E" in
  destruct b eqn:E;
  [ first [ apply Qltb_lt in E | apply Qle_bool_iff in E
          | apply Qeq_bool_iff in E ]
  | first [ apply Qltb_ge in E | apply Qle_bool_gt in E
          | apply Qeq_bool_neq in E ] ].

Lemma std_min_Qmin (a b : Q) : std_min a b = Qmin a b.
Proof.
  unfold std_min, Qmin, GenericMinMax.gmin.
  destruct (a ?= b) eqn:C.
  - apply Qeq_alt in C. cases_on (Qltb b a); [lra | reflexivity].
  - apply Qlt_alt in C. cases_on (Qltb b a); [lra | reflexivity].
  - apply Qgt_alt in C. cases_on (Qltb b a); [reflexivity | lra].
Qed.

(** ** The node loops *)

Lemma GetNodeValue_middle (pre suf : list Node) (a d : Node) :
  GetNodeValue (pre ++ a :: suf) (length pre) d = a.
Proof. apply nth_middle. Qed.

Lemma GetNodeValue_next (pre suf : list Node) (a b d : Node) :
  GetNodeValue (pre ++ a :: b :: suf) (length pre + 1) d = b.
Proof.
  unfold GetNodeValue. rewrite app_nth2 by lia.
  replace (length pre + 1 - length pre)%nat with 1%nat by lia. reflexivity.
Qed.

Lemma forEachSegment_from {A : Type} (body : Node -> Node -> list A) :
  forall (suf pre : list Node) (out : list A),
    fold_left
      (fun out index =>
         let currentNode := GetNodeValue (pre ++ suf) index (mkNode 0 0) in
         let nextNode := GetNodeValue (pre ++ suf) (index + 1) (mkNode 0 0) in
         out ++ body currentNode nextNode)
      (seq (length pre) (length suf - 1)) out
    = out ++ segments body suf.
Proof.
  induction suf as [|a suf IH]; intros pre out.
  - cbn. now rewrite app_nil_r.
  - destruct suf as [|b suf].
    + cbn. now rewrite app_nil_r.
    + cbn [length]. replace (S (S (length suf)) - 1)%nat with (S (length suf))
        by lia.
      cbn [seq fold_left]. cbv zeta.
      rewrite GetNodeValue_middle, GetNodeValue_next.
      change (pre ++ a :: b :: suf) with (pre ++ [a] ++ b :: suf).
      rewrite app_assoc.
      replace (S (length pre)) with (length (pre ++ [a]))
        by (rewrite length_app; cbn; lia).
      replace (length suf) with (length (b :: suf) - 1)%nat by (cbn; lia).
      pose proof (IH (pre ++ [a]) (out ++ body a b)) as IHa.
      cbv zeta in IHa. rewrite IHa.
      cbn [segments]. now rewrite <- app_assoc.
Qed.

Lemma forEachSegment_segments {A : Type} (f : t) (body : Node -> Node -> list A) :
  forEachSegment f body = segments body f.
Proof.
  unfold forEachSegment, GetSize.
  exact (forEachSegment_from body f [] []).
Qed.

Lemma replaceNode_middle (pre suf : list Node) (a n : Node) :
  replaceNode (length pre) n (pre ++ a :: suf) = pre ++ n :: suf.
Proof.
  induction pre as [|p pre IH]; simpl; [reflexivity | now rewrite IH].
Qed.

Lemma nth_error_middle (pre suf : list Node) (a : Node) :
  nth_error (pre ++ a :: suf) (length pre) = Some a.
Proof.
  induction pre as [|p pre IH]; simpl; [reflexivity | exact IH].
Qed.

Lemma moveNodesDown_from (clipValue : Q) :
  forall suf pre : list Node,
    fold_left
      (fun f nodeIndex =>
         let currentNode := GetNodeValue f nodeIndex (mkNode 0 0) in
         if Qgtb (Y currentNode) clipValue
         then SetNodeValue nodeIndex (mkNode (X currentNode) clipValue) f
         else f)
      (seq (length pre) (length suf)) (pre ++ suf)
    = pre ++ map (clampNode clipValue) suf.
Proof.
  induction suf as [|a suf IH]; intros pre.
  - cbn. now rewrite app_nil_r.
  - cbn [length seq fold_left]. cbv zeta.
    rewrite GetNodeValue_middle.
    assert (Hstep :
      (if Qgtb (Y a) clipValue
       then SetNodeValue (length pre) (mkNode (X a) clipValue) (pre ++ a :: suf)
       else pre ++ a :: suf)
      = (pre ++ [clampNode clipValue a]) ++ suf).
    { unfold clampNode, SetNodeValue. rewrite nth_error_middle.
      cbn [X]. rewrite Qeq_bool_same, replaceNode_middle.
      destruct (Qgtb (Y a) clipValue); now rewrite <- app_assoc. }
    rewrite Hstep.
    replace (S (length pre)) with (length (pre ++ [clampNode clipValue a]))
      by (rewrite length_app; cbn; lia).
    pose proof (IH (pre ++ [clampNode clipValue a])) as IHa.
    cbv zeta in IHa. rewrite IHa. now rewrite <- app_assoc.
Qed.

Lemma moveNodesDown_map (f : t) (clipValue : Q) :
  moveNodesDown f clipValue = map (clampNode clipValue) f.
Proof.
  unfold moveNodesDown, GetSize. exact (moveNodesDown_from clipValue f []).
Qed.

Lemma ClipMembershipFunction_unfold (f : t) (clipValue : Q) :
  ClipMembershipFunction f clipValue
  = if Qle_bool 1 clipValue then f
    else fold_left (fun g point => AddPoint point clipValue g)
                   (segments (crossingOf clipValue) f)
                   (map (clampNode clipValue) f).
Proof.
  unfold ClipMembershipFunction, newNodeParameterValues.
  now rewrite forEachSegment_segments, moveNodesDown_map.
Qed.

(** ** Sorting and [AddPoint] *)

Lemma strictlyIncreasing_StronglySorted (f : t) :
  strictlyIncreasing f <-> StronglySorted Xlt f.
Proof.
  split.
  - induction f as [|a f IH]; intro H; [constructor|].
    destruct f as [|b f]; [repeat constructor|].
    destruct H as [Hab Hrest]. specialize (IH Hrest).
    constructor; [exact IH|].
    constructor; [exact Hab|].
    apply StronglySorted_inv in IH. destruct IH as [_ Hb].
    eapply Forall_impl; [|exact Hb].
    intros c Hbc. unfold Xlt in *. lra.
  - induction f as [|a f IH]; intro H; [exact I|].
    destruct f as [|b f]; [exact I|].
    apply StronglySorted_inv in H. destruct H as [Hs Ha].
    split; [|exact (IH Hs)].
    apply Forall_inv in Ha. exact Ha.
Qed.

Section InsertionSort.

Variable P : Node -> Prop.

Lemma insertNode_Forall (n : Node) (f : t) :
  P n -> Forall P f -> Forall P (insertNode n f).
Proof.
  intros Hn. induction 1 as [|m f Hm Hf IH]; cbn.
  - now constructor.
  - destruct (Qltb (X n) (X m)); repeat constructor; assumption.
Qed.

Lemma sort_from_Forall (f sorted : t) :
  Forall P f -> Forall P sorted ->
  Forall P (fold_left (fun sorted n => insertNode n sorted) f sorted).
Proof.
  intros Hf. revert sorted.
  induction Hf as [|m f Hm Hf IH]; intros sorted Hs; cbn; [exact Hs|].
  apply IH. now apply insertNode_Forall.
Qed.

Lemma RemovePoint_Forall (x : Q) (f : t) :
  Forall P f -> Forall P (RemovePoint x f).
Proof.
  induction 1 as [|m f Hm Hf IH]; cbn; [constructor|].
  destruct (Qeq_bool (X m) x); [exact Hf | now constructor].
Qed.

Lemma AddPoint_Forall (x y : Q) (f : t) :
  P (mkNode x y) -> Forall P f -> Forall P (AddPoint x y f).
Proof.
  intros Hn Hf. unfold AddPoint, SortAndUpdateRange.
  apply sort_from_Forall; [|constructor].
  apply Forall_app. split; [now apply RemovePoint_Forall|].
  now repeat constructor.
Qed.

End InsertionSort.

Lemma insertNode_In (n : Node) (f : t) : In n (insertNode n f).
Proof.
  induction f as [|m f IH]; cbn; [now left|].
  destruct (Qltb (X n) (X m)); [now left | now right].
Qed.

Lemma insertNode_length (n : Node) (f : t) :
  length (insertNode n f) = S (length f).
Proof.
  induction f as [|m f IH]; cbn; [reflexivity|].
  destruct (Qltb (X n) (X m)); cbn; [reflexivity | now rewrite IH].
Qed.

Lemma sort_from_length (f sorted : t) :
  length (fold_left (fun sorted n => insertNode n sorted) f sorted)
  = (length f + length sorted)%nat.
Proof.
  revert sorted. induction f as [|m f IH]; intros sorted; cbn; [reflexivity|].
  rewrite IH, insertNode_length. lia.
Qed.

Lemma RemovePoint_length (x : Q) (f : t) :
  (length f <= S (length (RemovePoint x f)))%nat.
Proof.
  induction f as [|m f IH]; cbn; [lia|].
  destruct (Qeq_bool (X m) x); cbn; lia.
Qed.

Lemma AddPoint_length (x y : Q) (f : t) :
  (length f <= length (AddPoint x y f))%nat.
Proof.
  unfold AddPoint, SortAndUpdateRange.
  rewrite sort_from_length, length_app. cbn.
  pose proof (RemovePoint_length x f). lia.
Qed.

Lemma AddPoint_shape (x y : Q) (f : t) :
  AddPoint x y f
  = insertNode (mkNode x y) (SortAndUpdateRange (RemovePoint x f)).
Proof.
  unfold AddPoint, SortAndUpdateRange. now rewrite fold_left_app.
Qed.

Lemma AddPoint_In (x y : Q) (f : t) : In (mkNode x y) (AddPoint x y f).
Proof. rewrite AddPoint_shape. apply insertNode_In. Qed.

(** A node that does not come before any node of a list is inserted at its
    end. *)
Lemma insertNode_last (n : Node) (f : t) :
  Forall (fun m => X m <= X n) f -> insertNode n f = f ++ [n].
Proof.
  induction 1 as [|m f Hm Hf IH]; cbn; [reflexivity|].
  cases_on (Qltb (X n) (X m)); [lra | now rewrite IH].
Qed.

Lemma StronglySorted_prefix_below (pre suf : t) (a : Node) :
  StronglySorted Xlt (pre ++ a :: suf) -> Forall (fun m => X m <= X a) pre.
Proof.
  induction pre as [|p pre IH]; cbn; intro H; [constructor|].
  apply StronglySorted_inv in H. destruct H as [Hs Hp].
  constructor; [|exact (IH Hs)].
  apply Forall_app in Hp. destruct Hp as [_ Hp]. apply Forall_inv in Hp.
  unfold Xlt in Hp. lra.
Qed.

(** Sorting nodes that are in order already changes nothing. *)
Lemma sort_from_sorted (f sorted : t) :
  StronglySorted Xlt (sorted ++ f) ->
  fold_left (fun sorted n => insertNode n sorted) f sorted = sorted ++ f.
Proof.
  revert sorted. induction f as [|a f IH]; intros sorted H; cbn.
  - now rewrite app_nil_r.
  - rewrite insertNode_last by (eapply StronglySorted_prefix_below; exact H).
    rewrite IH; rewrite <- app_assoc; [reflexivity | exact H].
Qed.

Lemma SortAndUpdateRange_sorted (f : t) :
  StronglySorted Xlt f -> SortAndUpdateRange f = f.
Proof. intro H. exact (sort_from_sorted f [] H). Qed.

Lemma insertNode_sorted (n : Node) (f : t) :
  StronglySorted Xlt f -> Forall (fun m => ~ X m == X n) f ->
  StronglySorted Xlt (insertNode n f).
Proof.
  induction f as [|m f IH]; cbn; intros Hs Hne.
  - repeat constructor.
  - apply StronglySorted_inv in Hs. destruct Hs as [Hs Hm].
    apply Forall_cons_iff in Hne. destruct Hne as [Hmn Hne].
    cases_on (Qltb (X n) (X m)).
    + constructor; [now constructor|].
      constructor; [exact E|].
      eapply Forall_impl; [|exact Hm]. intros c Hc. unfold Xlt in *. lra.
    + constructor; [now apply IH|].
      apply insertNode_Forall; [|exact Hm].
      unfold Xlt. destruct (Qlt_le_dec (X m) (X n)) as [Hlt|Hle]; [exact Hlt|].
      exfalso. apply Hmn. lra.
Qed.

Lemma RemovePoint_sorted (x : Q) (f : t) :
  StronglySorted Xlt f ->
  StronglySorted Xlt (RemovePoint x f)
  /\ Forall (fun m => ~ X m == x) (RemovePoint x f).
Proof.
  induction f as [|m f IH]; cbn; intro Hs.
  - split; constructor.
  - apply StronglySorted_inv in Hs. destruct Hs as [Hs Hm].
    cases_on (Qeq_bool (X m) x).
    + split; [exact Hs|].
      eapply Forall_impl; [|exact Hm]. intros c Hc. unfold Xlt in Hc. lra.
    + destruct (IH Hs) as [IHs IHne]. split.
      * constructor; [exact IHs|]. now apply RemovePoint_Forall.
      * constructor; assumption.
Qed.

(** [AddPoint] keeps the nodes strictly ordered by [X]. *)
Lemma AddPoint_sorted (x y : Q) (f : t) :
  StronglySorted Xlt f -> StronglySorted Xlt (AddPoint x y f).
Proof.
  intro Hs. rewrite AddPoint_shape.
  destruct (RemovePoint_sorted x f Hs) as [Hr Hne].
  rewrite SortAndUpdateRange_sorted by exact Hr.
  apply insertNode_sorted; assumption.
Qed.

(** ** Clipping *)

Lemma clampNode_X (c : Q) (n : Node) : X (clampNode c n) = X n.
Proof. unfold clampNode. now destruct (Qgtb (Y n) c). Qed.

Lemma clampNode_Y (c : Q) (n : Node) : Y (clampNode c n) <= c.
Proof.
  unfold clampNode, Qgtb. cases_on (Qltb c (Y n)); cbn [Y]; lra.
Qed.

Lemma clampNode_below (c : Q) (n : Node) : Y n <= c -> clampNode c n = n.
Proof.
  intro H. unfold clampNode, Qgtb. cases_on (Qltb c (Y n)); [lra | reflexivity].
Qed.

Lemma map_clampNode_sorted (c : Q) (f : t) :
  StronglySorted Xlt f -> StronglySorted Xlt (map (clampNode c) f).
Proof.
  induction 1 as [|a f Hs IH Ha]; cbn; constructor; [exact IH|].
  apply Forall_map. eapply Forall_impl; [|exact Ha].
  intros b Hab. unfold Xlt. now rewrite !clampNode_X.
Qed.

Lemma map_clampNode_below (c : Q) (f : t) :
  degreesAtMost c f -> map (clampNode c) f = f.
Proof.
  induction 1 as [|a f Ha Hf IH]; cbn; [reflexivity|].
  now rewrite IH, clampNode_below.
Qed.

Lemma crossingOf_below (c : Q) (a b : Node) :
  Y a <= c -> Y b <= c -> crossingOf c a b = [].
Proof.
  intros Ha Hb. unfold crossingOf, Qgtb.
  cases_on (Qltb c (Y b)); [lra|].
  cases_on (Qltb c (Y a)); [lra|].
  now rewrite andb_false_r.
Qed.

Lemma segments_crossingOf_below (c : Q) (f : t) :
  degreesAtMost c f -> segments (crossingOf c) f = [].
Proof.
  induction 1 as [|a f Ha Hf IH]; [reflexivity|].
  destruct f as [|b f]; [reflexivity|].
  change (segments (crossingOf c) (a :: b :: f))
    with (crossingOf c a b ++ segments (crossingOf c) (b :: f)).
  rewrite IH, crossingOf_below; [reflexivity | exact Ha |].
  now apply Forall_inv in Hf.
Qed.

(** Points added at degree [c] keep a property that holds at that degree. *)
Lemma add_points_Forall (P : Node -> Prop) (c : Q) (points : list Q) :
  (forall x, P (mkNode x c)) ->
  forall f, Forall P f ->
            Forall P (fold_left (fun g point => AddPoint point c g) points f).
Proof.
  intro Hc. induction points as [|p points IH]; intros f Hf; cbn; [exact Hf|].
  apply IH. now apply AddPoint_Forall.
Qed.

Lemma add_points_sorted (c : Q) (points : list Q) :
  forall f, StronglySorted Xlt f ->
            StronglySorted Xlt
              (fold_left (fun g point => AddPoint point c g) points f).
Proof.
  induction points as [|p points IH]; intros f Hf; cbn; [exact Hf|].
  apply IH. now apply AddPoint_sorted.
Qed.

Lemma add_points_length (c : Q) (points : list Q) :
  forall f, (length f
             <= length (fold_left (fun g point => AddPoint point c g) points f))%nat.
Proof.
  induction points as [|p points IH]; intros f; cbn; [lia|].
  pose proof (AddPoint_length p c f). pose proof (IH (AddPoint p c f)). lia.
Qed.

(** A crossing is computed only between nodes of different degrees: the
    divisor of the new parameter value is not zero. *)
Lemma crossingOf_divisor (c : Q) (a b : Node) :
  crossingOf c a b <> [] -> ~ Y a - Y b == 0.
Proof.
  unfold crossingOf, Qgtb. intros H Hzero.
  cases_on (Qltb (Y a) c); cases_on (Qltb c (Y b));
    cases_on (Qltb c (Y a)); cases_on (Qltb (Y b) c);
    cbn in H; try congruence; lra.
Qed.

(** A clip value below one bounds every degree of the clipped function. *)
Lemma ClipMembershipFunction_degrees (f : t) (c : Q) :
  c < 1 -> degreesAtMost c (ClipMembershipFunction f c).
Proof.
  intro Hc. rewrite ClipMembershipFunction_unfold.
  cases_on (Qle_bool 1 c); [lra|].
  apply add_points_Forall.
  - intro x. cbn. lra.
  - apply Forall_map. apply Forall_forall. intros n _. apply clampNode_Y.
Qed.

Lemma ClipMembershipFunction_sorted (f : t) (c : Q) :
  StronglySorted Xlt f -> StronglySorted Xlt (ClipMembershipFunction f c).
Proof.
  intro Hs. rewrite ClipMembershipFunction_unfold.
  destruct (Qle_bool 1 c); [exact Hs|].
  apply add_points_sorted. now apply map_clampNode_sorted.
Qed.

Lemma ClipMembershipFunction_invariant (f : t) (s : Q) :
  strictlyIncreasing f -> degreesAtMost 1 f ->
  degreesAtMost s (ClipMembershipFunction f s)
  /\ strictlyIncreasing (ClipMembershipFunction f s).
Proof.
  intros Hinc Hdeg. split.
  - destruct (Qlt_le_dec s 1) as [Hlt|Hge].
    + now apply ClipMembershipFunction_degrees.
    + unfold ClipMembershipFunction.
      replace (Qle_bool 1 s) with true by (symmetry; now apply Qle_bool_iff).
      eapply Forall_impl; [|exact Hdeg]. cbn. intros n Hn. lra.
  - apply strictlyIncreasing_StronglySorted, ClipMembershipFunction_sorted.
    now apply strictlyIncreasing_StronglySorted.
Qed.

Lemma ClipMembershipFunction_at_least_one (f : t) (s : Q) :
  1 <= s -> ClipMembershipFunction f s = f.
Proof.
  intro H. unfold ClipMembershipFunction.
  now replace (Qle_bool 1 s) with true by (symmetry; now apply Qle_bool_iff).
Qed.

Lemma ClipMembershipFunction_below (f : t) (s : Q) :
  degreesAtMost s f -> ClipMembershipFunction f s = f.
Proof.
  intro H. rewrite ClipMembershipFunction_unfold.
  destruct (Qle_bool 1 s); [reflexivity|].
  now rewrite segments_crossingOf_below, map_clampNode_below.
Qed.

(** The canonical output functions, as the node lists [AddPoint] builds. *)
Lemma oversamplingLow_nodes :
  oversamplingLow = [mkNode (-1.25) 1; mkNode (-0.75) 1; mkNode 0.25 0].
Proof. reflexivity. Qed.

Lemma oversamplingNormal_nodes :
  oversamplingNormal = [mkNode (-0.75) 0; mkNode 0.25 1; mkNode 0.75 0].
Proof. reflexivity. Qed.

Lemma oversamplingHigh_nodes :
  oversamplingHigh
  = [mkNode 0.25 0; mkNode 0.75 1; mkNode 1.25 1; mkNode 1.75 0].
Proof. reflexivity. Qed.

Lemma oversamplingVeryHigh_nodes :
  oversamplingVeryHigh = [mkNode 1.25 0; mkNode 1.75 1; mkNode 2.25 1].
Proof. reflexivity. Qed.

Lemma canonicalConsequents_valid : Forall validOutput canonicalConsequents.
Proof.
  unfold canonicalConsequents.
  rewrite oversamplingLow_nodes, oversamplingNormal_nodes,
    oversamplingHigh_nodes, oversamplingVeryHigh_nodes.
  repeat (apply Forall_cons || apply Forall_nil);
    (unfold validOutput, degreesAtMost;
     refine (conj _ (conj _ (conj _ (conj _ _))));
     [ cbn; repeat split; reflexivity
     | repeat constructor; cbn; lra
     | repeat constructor; cbn; lra
     | apply Exists_cons_tl, Exists_cons_hd; reflexivity
     | cbn; lia ]).
Qed.

(** C4. For each of the six canonical output membership functions and every
    clip strength [s] in [0,1], after [ClipMembershipFunction] ran with that
    strength no control point's degree exceeds [s] and the x-coordinates of
    the control points are strictly increasing. *)
Theorem clip_canonical_bounded_increasing (s : Q) :
  0 <= s <= 1 ->
  Forall (fun f => degreesAtMost s (ClipMembershipFunction f s)
                   /\ strictlyIncreasing (ClipMembershipFunction f s))
         canonicalConsequents.
Proof.
  intros _. eapply Forall_impl; [|exact canonicalConsequents_valid].
  intros f (Hinc & Hdeg & _). now apply ClipMembershipFunction_invariant.
Qed.

Lemma clip_canonical_bounded_increasing_witness :
  0 <= 0.5 <= 1
  /\ Forall (fun f => degreesAtMost 0.5 (ClipMembershipFunction f 0.5)
                      /\ strictlyIncreasing (ClipMembershipFunction f 0.5))
            canonicalConsequents.
Proof.
  assert (H : 0 <= 0.5 <= 1) by (split; discriminate).
  split; [exact H | exact (clip_canonical_bounded_increasing 0.5 H)].
Defined.

(** C5. Clipping is idempotent: clipping an already clipped function with
    the same or a higher strength changes nothing, and clipping with a
    strength of at least 1.0 leaves any function unmodified. *)
Theorem ClipMembershipFunction_idempotent :
  (forall (f : t) (s s' : Q),
      s <= s' ->
      ClipMembershipFunction (ClipMembershipFunction f s) s'
      = ClipMembershipFunction f s)
  /\ (forall (f : t) (s : Q), 1 <= s -> ClipMembershipFunction f s = f).
Proof.
  split; [|exact ClipMembershipFunction_at_least_one].
  intros f s s' Hle.
  destruct (Qlt_le_dec s' 1) as [Hlt|Hge].
  - apply ClipMembershipFunction_below.
    assert (Hs : s < 1) by lra.
    pose proof (ClipMembershipFunction_degrees f s Hs) as Hd.
    eapply Forall_impl; [|exact Hd]. cbn. intros n Hn. lra.
  - now apply ClipMembershipFunction_at_least_one.
Qed.

Lemma ClipMembershipFunction_idempotent_witness :
  ClipMembershipFunction (ClipMembershipFunction oversamplingHigh 0.5) 0.75
  = ClipMembershipFunction oversamplingHigh 0.5
  /\ ClipMembershipFunction oversamplingNormal 1 = oversamplingNormal.
Proof.
  split.
  - apply (proj1 ClipMembershipFunction_idempotent). discriminate.
  - apply (proj2 ClipMembershipFunction_idempotent). discriminate.
Defined.

(** ** Fuzzification: some rule always fires *)

Lemma Qdiv_mult_cancel (a d : Q) : ~ d == 0 -> (a / d) * d == a.
Proof. intro H. field. exact H. Qed.

Lemma interpolate_fraction (n1 n2 : Node) (x : Q) :
  X n1 < X n2 ->
  exists s, interpolate n1 n2 x = (1 - s) * Y n1 + s * Y n2
            /\ s * (X n2 - X n1) == x - X n1.
Proof.
  intro H. exists ((x - X n1) / (X n2 - X n1)). split; [reflexivity|].
  apply Qdiv_mult_cancel. lra.
Qed.

Lemma interpolate_rising (n1 n2 : Node) (x : Q) :
  X n1 < x -> x <= X n2 -> 0 <= Y n1 -> 0 < Y n2 ->
  0 < interpolate n1 n2 x.
Proof.
  intros H1 H2 Hy1 Hy2.
  destruct (interpolate_fraction n1 n2 x) as (s & -> & Hs); [lra|].
  assert (0 < s) by nra. assert (s <= 1) by nra. nra.
Qed.

Lemma interpolate_falling (n1 n2 : Node) (x : Q) :
  X n1 < x -> x < X n2 -> 0 < Y n1 -> 0 <= Y n2 ->
  0 < interpolate n1 n2 x.
Proof.
  intros H1 H2 Hy1 Hy2.
  destruct (interpolate_fraction n1 n2 x) as (s & -> & Hs); [lra|].
  assert (0 < s) by nra. assert (s < 1) by nra. nra.
Qed.

Lemma sizeLarge_nodes : sizeLarge = [mkNode 0.5 1; mkNode 2 0].
Proof. reflexivity. Qed.

Lemma sizeMedium_nodes :
  sizeMedium = [mkNode 0.5 0; mkNode 2 1; mkNode 2.5 1; mkNode 3 0].
Proof. reflexivity. Qed.

Lemma sizeSmall_nodes :
  sizeSmall = [mkNode 2.5 0; mkNode 3 1; mkNode 3.25 1; mkNode 3.75 0].
Proof. reflexivity. Qed.

Lemma sizeVerySmall_nodes : sizeVerySmall = [mkNode 3.25 0; mkNode 3.75 1].
Proof. reflexivity. Qed.

Lemma complexityLow_nodes : complexityLow = [mkNode 0.2 1; mkNode 0.6 0].
Proof. reflexivity. Qed.

Lemma complexityHigh_nodes : complexityHigh = [mkNode 0.2 0; mkNode 0.6 1].
Proof. reflexivity. Qed.

(** Unfolds [GetValue] on a function given by its nodes and splits on the
    interval the argument lies in. *)
Ltac by_interval :=
  cbn [GetValue valueFrom X Y];
  repeat match goal with
    | |- context [Qle_bool ?a ?b] => cases_on (Qle_bool a b)
    end;
  cbn [X Y] in *;
  try lra;
  try (apply interpolate_rising; cbn [X Y]; lra);
  try (apply interpolate_falling; cbn [X Y]; lra).

Lemma sizeLarge_positive (x : Q) : x < 2 -> 0 < GetValue sizeLarge x.
Proof. intro H. rewrite sizeLarge_nodes. by_interval. Qed.

Lemma sizeMedium_positive (x : Q) :
  0.5 < x -> x < 3 -> 0 < GetValue sizeMedium x.
Proof. intros H1 H2. rewrite sizeMedium_nodes. by_interval. Qed.

Lemma sizeSmall_positive (x : Q) :
  2.5 < x -> x < 3.75 -> 0 < GetValue sizeSmall x.
Proof. intros H1 H2. rewrite sizeSmall_nodes. by_interval. Qed.

Lemma sizeVerySmall_positive (x : Q) :
  3.25 < x -> 0 < GetValue sizeVerySmall x.
Proof. intro H. rewrite sizeVerySmall_nodes. by_interval. Qed.

Lemma complexityLow_positive (x : Q) : x < 0.6 -> 0 < GetValue complexityLow x.
Proof. intro H. rewrite complexityLow_nodes. by_interval. Qed.

Lemma complexityHigh_positive (x : Q) :
  0.2 < x -> 0 < GetValue complexityHigh x.
Proof. intro H. rewrite complexityHigh_nodes. by_interval. Qed.

Lemma std_min_positive (a b : Q) : 0 < a -> 0 < b -> 0 < std_min a b.
Proof. intros Ha Hb. unfold std_min. now destruct (Qltb b a). Qed.

(** Whatever the two measures are, one of the six rules has a positive
    strength. *)
Lemma some_rule_fires (relativeStructureSize complexityMeasure : Q) :
  Exists (fun strength => 0 < strength)
         (strengths (ApplyRules relativeStructureSize complexityMeasure)).
Proof.
  set (x := relativeStructureSize). set (c := complexityMeasure).
  unfold strengths, ApplyRules. cbn [rule1_OversamplingVeryHighClippingValue
    rule2_OversamplingHighClippingValue rule3_OversamplingHighClippingValue
    rule4_OversamplingNormalClippingValue rule5_OversamplingNormalClippingValue
    rule6_OversamplingLowClippingValue].
  destruct (Qlt_le_dec 3.25 x) as [Hvs|Hvs].
  { apply Exists_cons_hd. now apply sizeVerySmall_positive. }
  destruct (Qlt_le_dec x 2) as [Hl|Hl].
  { do 5 apply Exists_cons_tl. apply Exists_cons_hd.
    now apply sizeLarge_positive. }
  destruct (Qlt_le_dec x 3) as [Hm|Hm]; destruct (Qlt_le_dec c 0.6) as [Hc|Hc].
  - do 4 apply Exists_cons_tl. apply Exists_cons_hd.
    apply std_min_positive;
      [apply sizeMedium_positive; lra | now apply complexityLow_positive].
  - do 2 apply Exists_cons_tl. apply Exists_cons_hd.
    apply std_min_positive;
      [apply sizeMedium_positive; lra | apply complexityHigh_positive; lra].
  - do 3 apply Exists_cons_tl. apply Exists_cons_hd.
    apply std_min_positive;
      [apply sizeSmall_positive; lra | now apply complexityLow_positive].
  - do 1 apply Exists_cons_tl. apply Exists_cons_hd.
    apply std_min_positive;
      [apply sizeSmall_positive; lra | apply complexityHigh_positive; lra].
Qed.

(** ** Areas *)

Lemma half (a : Q) : a / 2 == a * (1 # 2).
Proof. reflexivity. Qed.

(** A pair is pushed only with a positive area. *)
Lemma trapezoidOf_positive (a b : Node) (p : Q * Q) :
  In p (trapezoidOf a b) -> 0 < fst p.
Proof.
  unfold trapezoidOf.
  destruct (if Qgtb (Y b) (Y a) then _ else _) as [topTriangleArea centroid].
  unfold Qgtb.
  cases_on (Qltb 0 ((X b - X a) * std_min (Y b) (Y a) + topTriangleArea)).
  - intros [<- | []]. exact E.
  - intros [].
Qed.

(** Between two nodes in order, neither negative and not both zero, a pair
    is pushed. *)
Lemma trapezoidOf_retained (a b : Node) :
  X a < X b -> 0 <= Y a -> 0 <= Y b -> 0 < Y a \/ 0 < Y b ->
  trapezoidOf a b <> [].
Proof.
  intros Hx Ha Hb Hpos. unfold trapezoidOf, std_min, Qgtb.
  assert (Hw : 0 < X b - X a) by lra.
  cases_on (Qltb (Y a) (Y b)).
  - assert (Harea : 0 < (X b - X a) * Y a
                        + (X b - X a) * (Y b - Y a) / 2).
    { rewrite half. nra. }
    apply Qltb_lt in Harea. rewrite Harea. discriminate.
  - cases_on (Qltb (Y b) (Y a)).
    + assert (Harea : 0 < (X b - X a) * Y b
                          + (X b - X a) * (Y a - Y b) / 2).
      { rewrite half. nra. }
      apply Qltb_lt in Harea. rewrite Harea. discriminate.
    + assert (Harea : 0 < (X b - X a) * Y b + 0) by nra.
      apply Qltb_lt in Harea. rewrite Harea. discriminate.
Qed.

Lemma segments_cons {A : Type} (body : Node -> Node -> list A)
  (a b : Node) (f : t) :
  segments body (a :: b :: f) = body a b ++ segments body (b :: f).
Proof. reflexivity. Qed.

Lemma segments_retained (f : t) : hasArea f -> segments trapezoidOf f <> [].
Proof.
  intros (Hinc & Hnonneg & Hpos & Hlen).
  destruct f as [|a f]; [cbn in Hlen; lia|].
  revert a Hinc Hnonneg Hpos Hlen.
  induction f as [|b f IH]; intros a Hinc Hnonneg Hpos Hlen;
    [cbn in Hlen; lia|].
  rewrite segments_cons. destruct Hinc as [Hab Hinc].
  apply Forall_cons_iff in Hnonneg. destruct Hnonneg as [Ha Hnonneg].
  pose proof (Forall_inv Hnonneg) as Hb.
  destruct (Qlt_le_dec 0 (Y a)) as [Hya|Hya].
  { intro Hnil. apply app_eq_nil in Hnil. destruct Hnil as [Hnil _].
    revert Hnil. apply trapezoidOf_retained; auto. }
  destruct (Qlt_le_dec 0 (Y b)) as [Hyb|Hyb].
  { intro Hnil. apply app_eq_nil in Hnil. destruct Hnil as [Hnil _].
    revert Hnil. apply trapezoidOf_retained; auto. }
  assert (Hrest : Exists (fun n => 0 < Y n) f).
  { apply Exists_cons in Hpos. destruct Hpos as [Hpos|Hpos]; [lra|].
    apply Exists_cons in Hpos. destruct Hpos as [Hpos|Hpos]; [lra|exact Hpos]. }
  intro Hnil. apply app_eq_nil in Hnil. destruct Hnil as [_ Hnil].
  revert Hnil.
  apply IH;
    [ exact Hinc | exact Hnonneg | now apply Exists_cons_tl
    | destruct f; [inversion Hrest | cbn; lia] ].
Qed.

Lemma segments_trapezoidOf_positive (f : t) :
  Forall (fun p => 0 < fst p) (segments trapezoidOf f).
Proof.
  induction f as [|a f IH]; [constructor|].
  destruct f as [|b f]; [constructor|].
  rewrite segments_cons. apply Forall_app. split; [|exact IH].
  apply Forall_forall. intros p Hp. eapply trapezoidOf_positive; exact Hp.
Qed.

Lemma areaCentroidPairs_positive (consequents : list t) :
  Forall (fun p => 0 < fst p) (areaCentroidPairs consequents).
Proof.
  unfold areaCentroidPairs.
  induction consequents as [|f consequents IH]; cbn; [constructor|].
  apply Forall_app. split; [|exact IH].
  rewrite forEachSegment_segments. apply segments_trapezoidOf_positive.
Qed.

Lemma areaCentroidPairs_retained (consequents : list t) :
  Exists hasArea consequents -> areaCentroidPairs consequents <> [].
Proof.
  unfold areaCentroidPairs.
  induction 1 as [f consequents Hf | f consequents _ IH]; cbn;
    intro Hnil; apply app_eq_nil in Hnil; destruct Hnil as [Hf' Hrest].
  - rewrite forEachSegment_segments in Hf'.
    revert Hf'. now apply segments_retained.
  - now apply IH.
Qed.

Lemma sumComponents_from (pairs : list (Q * Q)) :
  Forall (fun p => 0 < fst p) pairs ->
  forall sums : Q * Q,
    snd sums
    <= snd (fold_left
              (fun sums trapezoid =>
                 (fst sums + fst trapezoid * snd trapezoid,
                  snd sums + fst trapezoid))
              pairs sums).
Proof.
  induction 1 as [|p pairs Hp Hpairs IH]; intro sums; cbn [fold_left];
    [lra|].
  eapply Qle_trans; [|apply IH]. cbn [snd]. lra.
Qed.

Lemma sumComponents_positive (pairs : list (Q * Q)) :
  Forall (fun p => 0 < fst p) pairs -> pairs <> [] ->
  0 < snd (sumComponents pairs).
Proof.
  intros Hpos Hne. destruct pairs as [|p pairs]; [congruence|].
  apply Forall_cons_iff in Hpos. destruct Hpos as [Hp Hpos].
  unfold sumComponents. cbn [fold_left].
  eapply Qlt_le_trans; [|apply sumComponents_from; exact Hpos].
  cbn [snd fst]. lra.
Qed.

(** Without a retained trapezoid both sums are the zeros they start from. *)
(** ** Clipped consequents keep an area *)

Lemma add_points_Exists (P : Node -> Prop) (c : Q) (points : list Q) :
  (forall x, P (mkNode x c)) ->
  forall f, Exists P f ->
            Exists P (fold_left (fun g point => AddPoint point c g) points f).
Proof.
  intro Hc. induction points as [|p points IH]; intros f Hf; cbn; [exact Hf|].
  apply IH. apply Exists_exists. exists (mkNode p c).
  split; [apply AddPoint_In | apply Hc].
Qed.

Lemma ClipMembershipFunction_hasArea (f : t) (s : Q) :
  validOutput f -> 0 < s -> hasArea (ClipMembershipFunction f s).
Proof.
  intros (Hinc & Hdeg & Hnonneg & Hone & Hlen) Hs.
  rewrite ClipMembershipFunction_unfold.
  cases_on (Qle_bool 1 s).
  - repeat split; try assumption.
    eapply Exists_impl; [|exact Hone]. cbn. intros n Hn. lra.
  - split; [|split; [|split]].
    + apply strictlyIncreasing_StronglySorted, add_points_sorted,
        map_clampNode_sorted.
      now apply strictlyIncreasing_StronglySorted.
    + apply add_points_Forall; [intro x; cbn; lra|].
      apply Forall_map. eapply Forall_impl; [|exact Hnonneg].
      cbn. intros n Hn. unfold clampNode. destruct (Qgtb (Y n) s); cbn; lra.
    + apply add_points_Exists; [intro x; cbn; lra|].
      apply Exists_map. eapply Exists_impl; [|exact Hone].
      cbn. intros n Hn. unfold clampNode, Qgtb.
      cases_on (Qltb s (Y n)); cbn; lra.
    + eapply Nat.le_trans; [|apply add_points_length].
      now rewrite length_map.
Qed.

Lemma Consequents_strengths (relativeStructureSize complexityMeasure : Q) :
  Consequents relativeStructureSize complexityMeasure
  = map (fun fs => ClipMembershipFunction (fst fs) (snd fs))
        (combine canonicalConsequents
                 (strengths (ApplyRules relativeStructureSize
                                        complexityMeasure))).
Proof. reflexivity. Qed.

Lemma total_area_positive (relativeStructureSize complexityMeasure : Q) :
  0 < totalArea (Consequents relativeStructureSize complexityMeasure).
Proof.
  unfold totalArea.
  apply sumComponents_positive; [apply areaCentroidPairs_positive|].
  apply areaCentroidPairs_retained.
  rewrite Consequents_strengths.
  pose proof (some_rule_fires relativeStructureSize complexityMeasure) as Hfire.
  pose proof canonicalConsequents_valid as Hvalid.
  unfold canonicalConsequents in *.
  set (rules := ApplyRules relativeStructureSize complexityMeasure) in *.
  unfold strengths in *. cbn [combine map fst snd].
  repeat match type of Hvalid with
         | Forall _ (_ :: _) =>
             let H := fresh "Hv" in
             apply Forall_cons_iff in Hvalid; destruct Hvalid as [H Hvalid]
         end.
  repeat (apply Exists_cons in Hfire;
          destruct Hfire as [Hfire|Hfire];
          [ first [ apply Exists_cons_hd;
                    apply ClipMembershipFunction_hasArea; assumption
                  | apply Exists_cons_tl ] | ]).
  all: try (inversion Hfire).
  all: repeat first [ apply Exists_cons_hd;
                      apply ClipMembershipFunction_hasArea; assumption
                    | apply Exists_cons_tl ].
Qed.

(** ** The inference *)

Lemma Consequents_spec (sizeMeasure complexityMeasure : Q) :
  Consequents sizeMeasure complexityMeasure
  = map (spec_consequent sizeMeasure complexityMeasure) spec_rules.
Proof.
  unfold Consequents, spec_rules, spec_consequent, spec_strength, ApplyRules.
  cbn -[ClipMembershipFunction GetValue Qmin sizeVerySmall sizeSmall sizeMedium
         sizeLarge complexityLow complexityHigh oversamplingLow
         oversamplingNormal oversamplingHigh oversamplingVeryHigh].
  now rewrite !std_min_Qmin.
Qed.

(** C2. For valid inputs the six rules are evaluated in the fixed order,
    with strengths degree(VerySmall), min(degree(Small), degree(High)),
    min(degree(Medium), degree(High)), min(degree(Small), degree(Low)),
    min(degree(Medium), degree(Low)) and degree(Large); they clip VeryHigh,
    High, High, Normal, Normal and Low; and the factor is computed from all
    six clipped consequents, whatever the strengths are. *)
Theorem six_rules_in_fixed_order (sizeMeasure complexityMeasure : Q) :
  ~ sizeMeasure == -1 -> ~ complexityMeasure == -1 ->
  strengths (ApplyRules sizeMeasure complexityMeasure)
  = map (fun r => spec_strength r sizeMeasure complexityMeasure) spec_rules
  /\ length spec_rules = 6%nat
  /\ Consequents sizeMeasure complexityMeasure
     = map (spec_consequent sizeMeasure complexityMeasure) spec_rules
  /\ DetermineOversamplingFactor sizeMeasure complexityMeasure
     = (factorOfConsequents
          (map (spec_consequent sizeMeasure complexityMeasure) spec_rules),
        []).
Proof.
  intros Hs Hc. split; [|split; [reflexivity|split]].
  - unfold strengths, ApplyRules, spec_rules, spec_strength.
    cbn -[GetValue Qmin sizeVerySmall sizeSmall sizeMedium sizeLarge
           complexityLow complexityHigh].
    now rewrite !std_min_Qmin.
  - apply Consequents_spec.
  - unfold DetermineOversamplingFactor.
    cases_on (Qeq_bool sizeMeasure (-1)); [contradiction|].
    cases_on (Qeq_bool complexityMeasure (-1)); [contradiction|].
    cbn [orb]. now rewrite Consequents_spec.
Qed.

Lemma six_rules_in_fixed_order_witness :
  strengths (ApplyRules 1.25 0.4)
  = map (fun r => spec_strength r 1.25 0.4) spec_rules
  /\ length spec_rules = 6%nat
  /\ Consequents 1.25 0.4 = map (spec_consequent 1.25 0.4) spec_rules
  /\ DetermineOversamplingFactor 1.25 0.4
     = (factorOfConsequents (map (spec_consequent 1.25 0.4) spec_rules), []).
Proof.
  apply (six_rules_in_fixed_order 1.25 0.4); discriminate.
Defined.

(** C3. For the size measure 4.0 and the complexity measure 0.1 only rule 1
    fires, at strength 1; its consequent is oversamplingVeryHigh unclipped;
    and [DetermineOversamplingFactor] returns 4.0, without a diagnostic. *)
Theorem very_small_structure_scenario :
  strengths (ApplyRules 4 0.1) = [1; 0; 0; 0; 0; 0]
  /\ nth 0 (Consequents 4 0.1) [] = oversamplingVeryHigh
  /\ DetermineOversamplingFactor 4 0.1 = (Num 4, []).
Proof.
  split; [|split]; vm_compute; reflexivity.
Qed.

(** C8. Whenever the size measure or the complexity measure is the
    sentinel -1.0, [DetermineOversamplingFactor] returns exactly 1.0 and
    reports an error. *)
Theorem sentinel_returns_default (relativeStructureSize complexityMeasure : Q) :
  relativeStructureSize == -1 \/ complexityMeasure == -1 ->
  DetermineOversamplingFactor relativeStructureSize complexityMeasure
  = (Num 1, [ErrorInvalidInputMeasures]).
Proof.
  intro H. unfold DetermineOversamplingFactor.
  cases_on (Qeq_bool relativeStructureSize (-1)); [reflexivity|].
  cases_on (Qeq_bool complexityMeasure (-1)); [reflexivity|].
  destruct H; contradiction.
Qed.

Lemma sentinel_returns_default_witness :
  DetermineOversamplingFactor 2.5 (-1) = (Num 1, [ErrorInvalidInputMeasures])
  /\ DetermineOversamplingFactor (-1) 0.3
     = (Num 1, [ErrorInvalidInputMeasures]).
Proof.
  split.
  - apply (sentinel_returns_default 2.5 (-1)). right. reflexivity.
  - apply (sentinel_returns_default (-1) 0.3). left. reflexivity.
Defined.

(** ** The size measure *)

Lemma bind_Some {A B : Type} (m : option A) (k : A -> option B) (b : B) :
  bind m k = Some b -> exists a, m = Some a /\ k a = Some b.
Proof.
  destruct m as [a|]; cbn; intro H; [|discriminate].
  exists a. now split.
Qed.

Lemma int_of_Z_Some (z r : Z) : int_of_Z z = Some r -> r = z.
Proof.
  unfold int_of_Z. destruct (fitsInt z); congruence.
Qed.

Lemma dimensionOf_Some (extent : list Z) (axis : nat) (dimension : Z) :
  dimensionOf extent axis = Some dimension ->
  dimension
  = (nth (axis * 2 + 1) extent 0 - nth (axis * 2) extent 0 + 1)%Z.
Proof.
  unfold dimensionOf, int_sub, int_add. intro H.
  apply bind_Some in H. destruct H as (difference & Hd & H).
  apply int_of_Z_Some in Hd, H. now subst.
Qed.

(** Peels the first computation off a chain that has a value. *)
Tactic Notation "peel" hyp(H) ident(x) ident(Hx) :=
  apply bind_Some in H; destruct H as (x & Hx & H).

Lemma volumeSanityCheck_signed (structureVolume structureProjectedVolume : Q) :
  In DebugVolumeMayBeInvalid
     (volumeSanityCheck structureVolume structureProjectedVolume)
  <-> structureVolume < (structureVolume - structureProjectedVolume) * 10000.
Proof.
  unfold volumeSanityCheck, Qgtb.
  cases_on (Qltb structureVolume
                 ((structureVolume - structureProjectedVolume) * 10000)).
  - split; [intros _; exact E | intros _; now left].
  - split; [intros [] | intro H; lra].
Qed.

Lemma int_of_Z_fits (z : Z) : fitsInt z = true -> int_of_Z z = Some z.
Proof. intro H. unfold int_of_Z. now rewrite H. Qed.

(** Runs a chain of [int] computations whose range checks are in the
    context. *)
Ltac run_ints :=
  unfold static_cast_int, int_add, int_sub, int_mul;
  repeat (cbn [bind];
          match goal with
          | Hfits : fitsInt ?z = true |- context [int_of_Z ?z] =>
              rewrite (int_of_Z_fits z Hfits)
          end);
  cbn [bind].

Ltac split_checks H :=
  cbv zeta in H;
  repeat match type of H with
         | (_ && _)%bool = true =>
             let H' := fresh "Hfits" in
             apply andb_prop in H; destruct H as [H H']
         end.

Lemma dimensionOf_defined (extent : list Z) (axis : nat) :
  dimensionFits extent axis = true ->
  dimensionOf extent axis
  = Some (nth (axis * 2 + 1) extent 0 - nth (axis * 2) extent 0 + 1)%Z.
Proof.
  unfold dimensionFits, dimensionOf. intro H. split_checks H. run_ints.
  reflexivity.
Qed.

Lemma CalculateRelativeStructureSize_defined
  (log10 : double -> double) (reference : vtkOrientedImageData)
  (massProperties : vtkMassProperties) :
  voxelCountFits reference = true ->
  CalculateRelativeStructureSize log10 (filterOf reference massProperties)
  = Some (fneg (log10 (ddiv (Num (GetVolume massProperties))
                            (referenceVolume reference))),
          volumeSanityCheck (GetVolume massProperties)
                            (GetVolumeProjected massProperties)
          ++ [DebugRelativeStructureSize]).
Proof.
  unfold voxelCountFits. intro H. split_checks H.
  unfold CalculateRelativeStructureSize, filterOf, GetDimensions,
    referenceVolume.
  cbn [InputPolyData ReferenceGeometryImageData MassPropertiesAlgorithm].
  rewrite !dimensionOf_defined by assumption. cbn [bind nth].
  run_ints. reflexivity.
Qed.

(** C9 (as amended). With its three inputs set (and a voxel count that fits
    an [int]), [CalculateRelativeStructureSize] writes the numerical quality
    diagnostic exactly when the signed difference of the volume and the
    projected volume, times 10000, exceeds the volume; the diagnostic is
    not fatal, and with or without it the size measure returned is
    -log10(volume / reference volume). *)
Theorem volume_diagnostic_is_one_sided
  (log10 : double -> double) (reference : vtkOrientedImageData)
  (massProperties : vtkMassProperties) :
  voxelCountFits reference = true ->
  exists (sizeMeasure : double) (diagnostics : list Diagnostic),
    CalculateRelativeStructureSize log10 (filterOf reference massProperties)
    = Some (sizeMeasure, diagnostics)
    /\ (In DebugVolumeMayBeInvalid diagnostics
        <-> GetVolume massProperties
            < (GetVolume massProperties - GetVolumeProjected massProperties)
              * 10000)
    /\ sizeMeasure
       = fneg (log10 (ddiv (Num (GetVolume massProperties))
                           (referenceVolume reference))).
Proof.
  intro Hfits.
  eexists. eexists.
  split; [now apply CalculateRelativeStructureSize_defined|].
  split; [|reflexivity].
  rewrite <- volumeSanityCheck_signed, in_app_iff. cbn [In].
  split; [intros [H|[H|[]]]; [exact H | discriminate] | now left].
Qed.

Lemma volume_diagnostic_is_one_sided_witness :
  exists (sizeMeasure : double) (diagnostics : list Diagnostic),
    CalculateRelativeStructureSize
      (fun d => d) (filterOf tenVoxelGrid (mkMassProperties 2 1 1.5))
    = Some (sizeMeasure, diagnostics)
    /\ (In DebugVolumeMayBeInvalid diagnostics <-> 2 < (2 - 1) * 10000)
    /\ sizeMeasure = fneg (ddiv (Num 2) (referenceVolume tenVoxelGrid)).
Proof.
  exact (volume_diagnostic_is_one_sided
           (fun d => d) tenVoxelGrid (mkMassProperties 2 1 1.5) eq_refl).
Defined.

(** C9 as stated fails: with a volume of 1 and a projected volume of 2 the
    discrepancy is 100% of the volume, and no numerical quality diagnostic
    is written. *)
Lemma larger_projected_volume_is_silent :
  1 < Qabs (1 - 2) * 10000
  /\ forall log10 : double -> double,
      option_map snd
        (CalculateRelativeStructureSize
           log10 (filterOf tenVoxelGrid (mkMassProperties 1 2 1.5)))
      = Some [DebugRelativeStructureSize].
Proof.
  split; [reflexivity | intro log10; reflexivity].
Qed.

(** ** The geometry scaler *)

(** [floor] and [ceil] are those of the rational that the number stands
    for. *)
Lemma floor_valueOf (x : spec_float) :
  floor x = option_map Qfloor (valueOf x).
Proof.
  destruct x as [s|s| |s m e]; try reflexivity.
  destruct e as [|p|p]; cbn [floor valueOf option_map]; f_equal.
  - now rewrite Qfloor_Z.
  - now rewrite Qfloor_Z.
  - unfold Qfloor. now rewrite Pos2Z.inj_pow.
Qed.

Lemma ceil_valueOf (x : spec_float) :
  ceil x = option_map Qceiling (valueOf x).
Proof.
  unfold ceil. rewrite floor_valueOf. unfold Qceiling.
  destruct x as [s|s| |s m e]; try reflexivity.
  cbn [SFopp valueOf option_map]. do 2 f_equal. apply Qfloor_comp.
  destruct e as [|p|p], s; cbn [negb]; unfold Qeq, Qopp, inject_Z;
    cbn [Qnum Qden]; change (Z.neg m) with (- Z.pos m)%Z; ring.
Qed.

Lemma scaleAxis_Some (factor : Q) (extent : list Z) (spacing : list double)
  (axis : nat) (newMin newMax : Z) (newSpacing : double) :
  scaleAxis factor extent spacing axis = Some (newMin, newMax, newSpacing) ->
  let oldDimension :=
    (nth (axis * 2 + 1) extent 0 - nth (axis * 2) extent 0 + 1)%Z in
  ceil (roundedProduct factor (nth (axis * 2) extent 0%Z)) = Some newMin
  /\ (exists scaled : Z,
         floor (roundedProduct factor oldDimension) = Some scaled
         /\ newMax = (newMin + scaled - 1)%Z)
  /\ newSpacing
     = ddiv (dmul (nth axis spacing (Num 0)) (Num (inject_Z oldDimension)))
            (Num (inject_Z (newMax - newMin + 1))).
Proof.
  unfold scaleAxis, static_cast_int, int_add, int_sub. intro H.
  peel H dimension Hdim. peel H extentMin Hmin. peel Hmin ceiling Hceiling.
  peel H scaled Hscaled. peel Hscaled floored Hfloored.
  peel H sum Hsum. peel H extentMax Hmax. peel H oldDimension Hold.
  peel H newDifference Hdiff. peel H newDimension Hnew.
  cbv zeta in H. injection H as <- <- <-.
  apply dimensionOf_Some in Hdim, Hold.
  apply int_of_Z_Some in Hmin, Hscaled, Hsum, Hmax, Hdiff, Hnew.
  subst. cbv zeta. split; [exact Hceiling|].
  split; [exists floored; now split | reflexivity].
Qed.

Lemma scaleAxis_defined (factor : Q) (extent : list Z) (spacing : list double)
  (axis : nat) :
  axisScales factor extent axis = true ->
  exists scaledAxis : Z * Z * double,
    scaleAxis factor extent spacing axis = Some scaledAxis.
Proof.
  unfold axisScales. cbv zeta.
  destruct (ceil (roundedProduct factor (nth (axis * 2) extent 0%Z)))
    as [extentMin|] eqn:Hceiling; [|discriminate].
  destruct (floor (roundedProduct factor
                     (nth (axis * 2 + 1) extent 0 - nth (axis * 2) extent 0
                      + 1)%Z))
    as [scaled|] eqn:Hfloored; [|discriminate].
  intro H. split_checks H.
  unfold scaleAxis. rewrite !dimensionOf_defined by assumption.
  cbn [bind]. rewrite Hceiling, Hfloored.
  run_ints. eexists. reflexivity.
Qed.

(** Whatever the image to world transform is, a factor that is applied
    yields an image and no diagnostic when the scaling of the three axes
    is defined. *)
Lemma ApplyOversamplingOnImageGeometry_defined
  (toWorld : vtkOrientedImageData -> list double -> list double)
  (image : vtkOrientedImageData) (factor : Q) :
  0.01 <= factor -> factor <= 100 -> ~ factor == 1 ->
  (forall axis : nat,
      (axis < 3)%nat -> axisScales factor (Extent image) axis = true) ->
  exists image' : vtkOrientedImageData,
    ApplyOversamplingOnImageGeometry toWorld (Some image) factor
    = Some (Some image', []).
Proof.
  intros Hlow Hhigh Hne Haxes.
  unfold ApplyOversamplingOnImageGeometry, Qgtb.
  cases_on (Qltb factor 0.01); [lra|].
  cases_on (Qltb 100 factor); [lra|].
  cases_on (Qeq_bool factor 1); [contradiction|].
  cbn [orb negb].
  destruct (scaleAxis_defined factor _ (Spacing image) 0%nat
                              (Haxes 0%nat ltac:(lia))) as (axis0 & ->).
  destruct (scaleAxis_defined factor _ (Spacing image) 1%nat
                              (Haxes 1%nat ltac:(lia))) as (axis1 & ->).
  destruct (scaleAxis_defined factor _ (Spacing image) 2%nat
                              (Haxes 2%nat ltac:(lia))) as (axis2 & ->).
  cbn [bind]. eexists. reflexivity.
Qed.

Lemma applied_factor_formulas
  (toWorld : vtkOrientedImageData -> list double -> list double)
  (image image' : vtkOrientedImageData) (factor : Q)
  (diagnostics : list Diagnostic) :
  0.01 <= factor -> factor <= 100 -> ~ factor == 1 ->
  ApplyOversamplingOnImageGeometry toWorld (Some image) factor
  = Some (Some image', diagnostics) ->
  forall axis : nat,
    (axis < 3)%nat ->
    let oldMin := nth (axis * 2) (Extent image) 0%Z in
    let oldMax := nth (axis * 2 + 1) (Extent image) 0%Z in
    let oldDimension := (oldMax - oldMin + 1)%Z in
    let newMin := nth (axis * 2) (Extent image') 0%Z in
    let newMax := nth (axis * 2 + 1) (Extent image') 0%Z in
    let newDimension := (newMax - newMin + 1)%Z in
    ceil (roundedProduct factor oldMin) = Some newMin
    /\ (exists scaled : Z,
           floor (roundedProduct factor oldDimension) = Some scaled
           /\ newMax = (newMin + scaled - 1)%Z)
    /\ nth axis (Spacing image') (Num 0)
       = ddiv (dmul (nth axis (Spacing image) (Num 0))
                    (Num (inject_Z oldDimension)))
              (Num (inject_Z newDimension)).
Proof.
  intros Hlow Hhigh Hne H.
  unfold ApplyOversamplingOnImageGeometry in H.
  unfold Qgtb in H.
  cases_on (Qltb factor 0.01); [lra|].
  cases_on (Qltb 100 factor); [lra|].
  cases_on (Qeq_bool factor 1); [contradiction|].
  cbn [orb negb] in H.
  peel H axis0 H0. peel H axis1 H1. peel H axis2 H2.
  injection H as <- <-.
  destruct axis0 as [[min0 max0] spacing0].
  destruct axis1 as [[min1 max1] spacing1].
  destruct axis2 as [[min2 max2] spacing2].
  apply scaleAxis_Some in H0, H1, H2.
  intros axis Haxis.
  destruct axis as [|[|[|axis]]]; [exact H0 | exact H1 | exact H2 | lia].
Qed.

(** The products are the rounded ones.  The double nearest to 0.7 is below
    0.7, so that ten times it is below 7; the binary64 product is 7.0, and
    the ten voxels of an axis become 7, as in the code. *)
Lemma rounded_product_decides_the_extent :
  option_map Qred (valueOf (binary64_of_Q nearest_0_7)) = Some nearest_0_7
  /\ Qfloor (nearest_0_7 * 10) = 6%Z
  /\ floor (roundedProduct nearest_0_7 10) = Some 7%Z
  /\ forall toWorld : vtkOrientedImageData -> list double -> list double,
      exists image' : vtkOrientedImageData,
        ApplyOversamplingOnImageGeometry toWorld (Some tenVoxelGrid)
                                         nearest_0_7
        = Some (Some image', [])
        /\ Extent image' = [0; 6; 0; 6; 0; 6]%Z.
Proof.
  split; [reflexivity|]. split; [reflexivity|]. split; [reflexivity|].
  intro toWorld. eexists. split; [vm_compute; reflexivity | reflexivity].
Qed.

(** A run that ends with a geometry that is not finite: the factor 0.01
    leaves no voxel of the ten on an axis, the new spacing is 10/0 and the
    origin is a NaN. *)
Lemma empty_grid_has_infinite_spacing :
  ApplyOversamplingOnImageGeometry axisAlignedImageToWorld
                                   (Some tenVoxelGrid) 0.01
  = Some (Some (mkImageData [0; -1; 0; -1; 0; -1]%Z [PosInf; PosInf; PosInf]
                            [NaN; NaN; NaN] (Directions tenVoxelGrid)),
          []).
Proof. vm_compute. reflexivity. Qed.

(** C6. When [ApplyOversamplingOnImageGeometry] applies a factor (one in
    [0.01,100] other than 1.0; the run is one that C++ defines: no [int]
    overflows), the call writes no diagnostic and on each of the three
    axes the new extent minimum is ceil(factor * old extent minimum), the
    new extent maximum is the new minimum plus floor(factor * old
    dimension) minus 1, and the new spacing is
    old spacing * old dimension / new dimension, an infinity or a NaN when
    the new dimension is 0.  The products are those of the code: the
    binary64 product of the factor and the converted [int].  The factor
    2.0 on the extent [0,9] with spacing 1.0 gives the extent [0,19],
    20 voxels, with spacing 0.5. *)
Theorem applied_factor_scales_each_axis :
  (forall (toWorld : vtkOrientedImageData -> list double -> list double)
          (image : vtkOrientedImageData) (factor : Q),
      0.01 <= factor -> factor <= 100 -> ~ factor == 1 ->
      (forall axis : nat,
          (axis < 3)%nat -> axisScales factor (Extent image) axis = true) ->
      exists image' : vtkOrientedImageData,
        ApplyOversamplingOnImageGeometry toWorld (Some image) factor
        = Some (Some image', [])
        /\ forall axis : nat,
            (axis < 3)%nat ->
            let oldMin := nth (axis * 2) (Extent image) 0%Z in
            let oldMax := nth (axis * 2 + 1) (Extent image) 0%Z in
            let oldDimension := (oldMax - oldMin + 1)%Z in
            let newMin := nth (axis * 2) (Extent image') 0%Z in
            let newMax := nth (axis * 2 + 1) (Extent image') 0%Z in
            let newDimension := (newMax - newMin + 1)%Z in
            ceil (roundedProduct factor oldMin) = Some newMin
            /\ (exists scaled : Z,
                   floor (roundedProduct factor oldDimension) = Some scaled
                   /\ newMax = (newMin + scaled - 1)%Z)
            /\ nth axis (Spacing image') (Num 0)
               = ddiv (dmul (nth axis (Spacing image) (Num 0))
                            (Num (inject_Z oldDimension)))
                      (Num (inject_Z newDimension)))
  /\ (forall toWorld : vtkOrientedImageData -> list double -> list double,
         exists image' : vtkOrientedImageData,
           ApplyOversamplingOnImageGeometry toWorld (Some tenVoxelGrid) 2
           = Some (Some image', [])
           /\ Extent image' = [0; 19; 0; 19; 0; 19]%Z
           /\ Forall (fun newSpacing =>
                        exists q : Q, newSpacing = Num q /\ q == 0.5)
                     (Spacing image')).
Proof.
  split.
  - intros toWorld image factor Hlow Hhigh Hne Haxes.
    destruct (ApplyOversamplingOnImageGeometry_defined
                toWorld image factor Hlow Hhigh Hne Haxes) as (image' & Hrun).
    exists image'. split; [exact Hrun|].
    exact (applied_factor_formulas toWorld image image' factor []
                                   Hlow Hhigh Hne Hrun).
  - intro toWorld. eexists. split; [vm_compute; reflexivity|].
    split; [reflexivity|].
    repeat (constructor; [eexists; split; reflexivity|]). constructor.
Qed.

Lemma applied_factor_scales_each_axis_witness :
  exists image' : vtkOrientedImageData,
    ApplyOversamplingOnImageGeometry axisAlignedImageToWorld
      (Some unevenGrid) 0.5
    = Some (Some image', [])
    /\ forall axis : nat,
        (axis < 3)%nat ->
        let oldMin := nth (axis * 2) (Extent unevenGrid) 0%Z in
        let oldMax := nth (axis * 2 + 1) (Extent unevenGrid) 0%Z in
        let oldDimension := (oldMax - oldMin + 1)%Z in
        let newMin := nth (axis * 2) (Extent image') 0%Z in
        let newMax := nth (axis * 2 + 1) (Extent image') 0%Z in
        let newDimension := (newMax - newMin + 1)%Z in
        ceil (roundedProduct 0.5 oldMin) = Some newMin
        /\ (exists scaled : Z,
               floor (roundedProduct 0.5 oldDimension) = Some scaled
               /\ newMax = (newMin + scaled - 1)%Z)
        /\ nth axis (Spacing image') (Num 0)
           = ddiv (dmul (nth axis (Spacing unevenGrid) (Num 0))
                        (Num (inject_Z oldDimension)))
                  (Num (inject_Z newDimension)).
Proof.
  apply (proj1 applied_factor_scales_each_axis
               axisAlignedImageToWorld unevenGrid 0.5);
    [discriminate | discriminate | discriminate |].
  intros axis Haxis.
  destruct axis as [|[|[|axis]]];
    [reflexivity | reflexivity | reflexivity | lia].
Defined.

(** C7. [ApplyOversamplingOnImageGeometry] leaves the extent, the spacing
    and the origin of the grid as they are when the factor is exactly 1.0,
    silently, and when the factor is outside [0.01,100], with a diagnostic
    only. *)
Theorem unapplied_factor_leaves_grid
  (toWorld : vtkOrientedImageData -> list double -> list double)
  (image : vtkOrientedImageData) (factor : Q) :
  (factor == 1 ->
   ApplyOversamplingOnImageGeometry toWorld (Some image) factor
   = Some (Some image, []))
  /\ (factor < 0.01 \/ 100 < factor ->
      ApplyOversamplingOnImageGeometry toWorld (Some image) factor
      = Some (Some image, [WarningUnreasonableFactor])).
Proof.
  unfold ApplyOversamplingOnImageGeometry, Qgtb. split; intro H.
  - cases_on (Qltb factor 0.01); [lra|].
    cases_on (Qltb 100 factor); [lra|].
    cases_on (Qeq_bool factor 1); [reflexivity | contradiction].
  - cases_on (Qltb factor 0.01); [reflexivity|].
    cases_on (Qltb 100 factor); [reflexivity|].
    destruct H; lra.
Qed.

Lemma unapplied_factor_leaves_grid_witness :
  ApplyOversamplingOnImageGeometry axisAlignedImageToWorld
    (Some tenVoxelGrid) 1
  = Some (Some tenVoxelGrid, [])
  /\ ApplyOversamplingOnImageGeometry axisAlignedImageToWorld
       (Some tenVoxelGrid) 150
     = Some (Some tenVoxelGrid, [WarningUnreasonableFactor]).
Proof.
  split.
  - apply (proj1 (unapplied_factor_leaves_grid
                    axisAlignedImageToWorld tenVoxelGrid 1)).
    reflexivity.
  - apply (proj2 (unapplied_factor_leaves_grid
                    axisAlignedImageToWorld tenVoxelGrid 150)).
    right. reflexivity.
Defined.

(** C10. Called with a null grid pointer,
    [ApplyOversamplingOnImageGeometry] returns at once for every factor:
    nothing is changed and no diagnostic is written. *)
Theorem null_grid_is_silent_noop
  (toWorld : vtkOrientedImageData -> list double -> list double)
  (factor : Q) :
  ApplyOversamplingOnImageGeometry toWorld None factor = Some (None, []).
Proof. reflexivity. Qed.

(** * Further properties *)

(** ** The quotient of the defuzzification *)

(** Whatever the two measures are, some rule fires, the retained
    trapezoids have a positive total area, and the quotient
    [nominator / denominator] is a number: the denominator is never 0. *)
Theorem some_rule_always_fires (relativeStructureSize complexityMeasure : Q) :
  let consequents := Consequents relativeStructureSize complexityMeasure in
  Exists (fun strength => 0 < strength)
         (strengths (ApplyRules relativeStructureSize complexityMeasure))
  /\ 0 < totalArea consequents
  /\ exists centerOfMass : Q,
      centerOfMassOf (areaCentroidPairs consequents) = Num centerOfMass.
Proof.
  cbv zeta. split; [apply some_rule_fires|].
  pose proof (total_area_positive relativeStructureSize complexityMeasure)
    as Hpositive.
  split; [exact Hpositive|].
  unfold centerOfMassOf, fdiv, totalArea in *.
  cases_on (Qeq_bool
              (snd (sumComponents
                      (areaCentroidPairs
                         (Consequents relativeStructureSize
                                      complexityMeasure)))) 0); [lra|].
  eexists. reflexivity.
Qed.

(** ** Membership degrees *)

Lemma interpolate_between (n1 n2 : Node) (x lo hi : Q) :
  X n1 < x -> x <= X n2 ->
  lo <= Y n1 <= hi -> lo <= Y n2 <= hi ->
  lo <= interpolate n1 n2 x <= hi.
Proof.
  intros H1 H2 Hy1 Hy2.
  destruct (interpolate_fraction n1 n2 x) as (s & -> & Hs); [lra|].
  assert (0 < s) by nra. assert (s <= 1) by nra. split; nra.
Qed.

Lemma valueFrom_between (lo hi : Q) (rest : list Node) :
  forall (n1 : Node) (x : Q),
    X n1 < x -> Forall (fun n => lo <= Y n <= hi) (n1 :: rest) ->
    lo <= valueFrom n1 rest x <= hi.
Proof.
  induction rest as [|n2 rest IH]; intros n1 x Hx Hall; cbn [valueFrom].
  - exact (Forall_inv Hall).
  - pose proof (Forall_inv Hall) as H1.
    pose proof (Forall_inv_tail Hall) as Htail.
    cases_on (Qle_bool x (X n2)).
    + apply interpolate_between; [exact Hx | exact E | exact H1 |].
      exact (Forall_inv Htail).
    + now apply IH.
Qed.

(** The value of a piecewise function lies between any two bounds of its
    node values (and of 0, the value of a function without nodes). *)
Lemma GetValue_between (f : t) (x lo hi : Q) :
  lo <= 0 <= hi -> Forall (fun n => lo <= Y n <= hi) f ->
  lo <= GetValue f x <= hi.
Proof.
  intros Hzero Hall. destruct f as [|n1 rest]; cbn [GetValue]; [exact Hzero|].
  cases_on (Qle_bool x (X n1)).
  - exact (Forall_inv Hall).
  - now apply valueFrom_between.
Qed.

Lemma std_min_between (a b lo hi : Q) :
  lo <= a <= hi -> lo <= b <= hi -> lo <= std_min a b <= hi.
Proof. intros Ha Hb. unfold std_min. now destruct (Qltb b a). Qed.

Ltac unit_degrees :=
  apply GetValue_between; [lra | repeat constructor; cbn; lra].

Lemma strengths_between (relativeStructureSize complexityMeasure : Q) :
  Forall (fun strength => 0 <= strength <= 1)
         (strengths (ApplyRules relativeStructureSize complexityMeasure)).
Proof.
  unfold strengths, ApplyRules.
  cbn [rule1_OversamplingVeryHighClippingValue
         rule2_OversamplingHighClippingValue rule3_OversamplingHighClippingValue
         rule4_OversamplingNormalClippingValue
         rule5_OversamplingNormalClippingValue
         rule6_OversamplingLowClippingValue].
  rewrite sizeLarge_nodes, sizeMedium_nodes, sizeSmall_nodes,
    sizeVerySmall_nodes, complexityLow_nodes, complexityHigh_nodes.
  repeat (apply Forall_cons || apply Forall_nil);
    try apply std_min_between; unit_degrees.
Qed.

(** The strength of each of the six rules is a degree between 0 and 1,
    whatever the two measures are. *)
Theorem strengths_in_unit_interval (relativeStructureSize complexityMeasure : Q) :
  Forall (fun strength => 0 <= strength <= 1)
         (strengths (ApplyRules relativeStructureSize complexityMeasure)).
Proof.
  exact (strengths_between relativeStructureSize complexityMeasure).
Qed.

(** ** Trapezoids *)

Lemma Qltb_true (a b : Q) : a < b -> Qltb a b = true.
Proof. apply Qltb_lt. Qed.

Lemma Qltb_false (a b : Q) : b <= a -> Qltb a b = false.
Proof. apply Qltb_ge. Qed.

Lemma trapezoidOf_formula (a b : Node) :
  X a < X b -> 0 <= Y a -> 0 <= Y b -> 0 < Y a + Y b ->
  exists area centroid : Q,
    trapezoidOf a b = [(area, centroid)]
    /\ area == (X b - X a) * (Y a + Y b) / 2
    /\ centroid
       == X a + (X b - X a) * (Y a + 2 * Y b) / (3 * (Y a + Y b)).
Proof.
  intros Hx Ha Hb Hsum. unfold trapezoidOf, std_min, Qgtb.
  assert (Hw : 0 < X b - X a) by lra.
  cases_on (Qltb (Y a) (Y b)).
  - cbv beta iota zeta.
    rewrite (Qltb_true 0 ((X b - X a) * (Y b - Y a) / 2))
      by (rewrite half; nra).
    rewrite (Qltb_true 0 ((X b - X a) * Y a + (X b - X a) * (Y b - Y a) / 2))
      by (rewrite half; nra).
    eexists. eexists. split; [reflexivity|].
    split; field; repeat split; nra.
  - cases_on (Qltb (Y b) (Y a)).
    + cbv beta iota zeta.
      rewrite (Qltb_true 0 ((X b - X a) * (Y a - Y b) / 2))
        by (rewrite half; nra).
      rewrite (Qltb_true 0 ((X b - X a) * Y b + (X b - X a) * (Y a - Y b) / 2))
        by (rewrite half; nra).
      eexists. eexists. split; [reflexivity|].
    split; field; repeat split; nra.
    + cbv beta iota zeta.
      assert (Heq : Y a == Y b) by lra.
      rewrite (Qltb_false 0 0) by lra.
      rewrite (Qltb_true 0 ((X b - X a) * Y b + 0)) by nra.
      eexists. eexists. split; [reflexivity|]. split.
      * rewrite Heq. field.
      * rewrite Heq. field. repeat split; nra.
Qed.

(** Between two nodes in order, with degrees that are not negative and not
    both zero, the pair pushed is the area and the centroid of the
    trapezoid under the segment: width times the mean degree, and the
    point a fraction (ya + 2 yb) / (3 (ya + yb)) of the width from the left
    node. *)
Theorem trapezoidOf_area_and_centroid (a b : Node) :
  X a < X b -> 0 <= Y a -> 0 <= Y b -> 0 < Y a + Y b ->
  exists area centroid : Q,
    trapezoidOf a b = [(area, centroid)]
    /\ area == (X b - X a) * (Y a + Y b) / 2
    /\ centroid
       == X a + (X b - X a) * (Y a + 2 * Y b) / (3 * (Y a + Y b)).
Proof. exact (trapezoidOf_formula a b). Qed.

Lemma trapezoidOf_area_and_centroid_witness :
  exists area centroid : Q,
    trapezoidOf (mkNode 1.25 0) (mkNode 1.75 1) = [(area, centroid)]
    /\ area == (1.75 - 1.25) * (0 + 1) / 2
    /\ centroid == 1.25 + (1.75 - 1.25) * (0 + 2 * 1) / (3 * (0 + 1)).
Proof.
  apply (trapezoidOf_area_and_centroid (mkNode 1.25 0) (mkNode 1.75 1));
    cbn; [reflexivity | discriminate | discriminate | reflexivity].
Defined.

(** Between nodes whose degrees are not positive nothing is pushed. *)
Lemma trapezoidOf_nonpositive (a b : Node) :
  X a < X b -> Y a <= 0 -> Y b <= 0 -> trapezoidOf a b = [].
Proof.
  intros Hx Ha Hb. unfold trapezoidOf, std_min, Qgtb.
  assert (Hw : 0 < X b - X a) by lra.
  cases_on (Qltb (Y a) (Y b)).
  - cbv beta iota zeta.
    rewrite (Qltb_false 0
               ((X b - X a) * Y a + (X b - X a) * (Y b - Y a) / 2))
      by (rewrite half; nra).
    reflexivity.
  - cases_on (Qltb (Y b) (Y a)).
    + cbv beta iota zeta.
      rewrite (Qltb_false 0
                 ((X b - X a) * Y b + (X b - X a) * (Y a - Y b) / 2))
        by (rewrite half; nra).
      reflexivity.
    + cbv beta iota zeta.
      rewrite (Qltb_false 0 ((X b - X a) * Y b + 0)) by nra.
      reflexivity.
Qed.

Lemma trapezoidOf_centroid_between (a b : Node) (p : Q * Q) :
  X a < X b -> 0 <= Y a -> 0 <= Y b ->
  In p (trapezoidOf a b) -> X a <= snd p <= X b.
Proof.
  intros Hx Ha Hb Hin.
  destruct (Qlt_le_dec 0 (Y a + Y b)) as [Hsum|Hsum].
  - destruct (trapezoidOf_formula a b Hx Ha Hb Hsum)
      as (area & centroid & Heq & _ & Hc).
    rewrite Heq in Hin. destruct Hin as [<- | []]. cbn [snd].
    set (r := (X b - X a) * (Y a + 2 * Y b) / (3 * (Y a + Y b))) in Hc.
    assert (Hr : r * (3 * (Y a + Y b)) == (X b - X a) * (Y a + 2 * Y b))
      by (apply Qdiv_mult_cancel; lra).
    assert (0 <= r) by nra.
    assert (r <= X b - X a) by nra.
    lra.
  - rewrite trapezoidOf_nonpositive in Hin by lra. destruct Hin.
Qed.

(** ** The factor is one of four powers of two *)

(** A crossing lies strictly between the two nodes it is computed from. *)
Lemma crossingOf_between (c : Q) (a b : Node) (p : Q) :
  X a < X b -> In p (crossingOf c a b) -> X a < p < X b.
Proof.
  intros Hx. unfold crossingOf, Qgtb.
  set (q := (X b - X a) * (Y a - c) / (Y a - Y b)).
  cases_on (Qltb (Y a) c); cases_on (Qltb c (Y b));
    cases_on (Qltb c (Y a)); cases_on (Qltb (Y b) c);
    cbn [andb orb In]; try tauto; try lra; intros [<- | []];
    assert (Hq : q * (Y a - Y b) == (X b - X a) * (Y a - c))
      by (apply Qdiv_mult_cancel; lra).
  - assert (0 < (X b - X a) * (c - Y a)) by nra.
    assert (0 < (X b - X a) * (Y b - c)) by nra.
    assert (0 < q) by nra.
    assert (0 < (X b - X a - q) * (Y b - Y a)) by nra.
    assert (q < X b - X a) by nra. lra.
  - assert (0 < (X b - X a) * (Y a - c)) by nra.
    assert (0 < (X b - X a) * (c - Y b)) by nra.
    assert (0 < q) by nra.
    assert (0 < (X b - X a - q) * (Y a - Y b)) by nra.
    assert (q < X b - X a) by nra. lra.
Qed.

Lemma segments_crossingOf_between (c lo hi : Q) (f : t) :
  strictlyIncreasing f -> Forall (fun n => lo <= X n <= hi) f ->
  Forall (fun p => lo <= p <= hi) (segments (crossingOf c) f).
Proof.
  induction f as [|a f IH]; intros Hinc Hall; [constructor|].
  destruct f as [|b f]; [constructor|].
  rewrite segments_cons. destruct Hinc as [Hab Hinc].
  pose proof (Forall_inv Hall) as Ha.
  pose proof (Forall_inv_tail Hall) as Htail.
  pose proof (Forall_inv Htail) as Hb.
  apply Forall_app. split; [|now apply IH].
  apply Forall_forall. intros p Hp.
  pose proof (crossingOf_between c a b p Hab Hp). cbn beta in *. lra.
Qed.

Lemma add_points_Forall_points (P : Node -> Prop) (c : Q) (points : list Q) :
  Forall (fun p => P (mkNode p c)) points ->
  forall f, Forall P f ->
            Forall P (fold_left (fun g point => AddPoint point c g) points f).
Proof.
  induction 1 as [|p points Hp Hpoints IH]; intros f Hf; cbn; [exact Hf|].
  apply IH. now apply AddPoint_Forall.
Qed.

(** Clipping adds no node outside the range of the nodes. *)
Lemma ClipMembershipFunction_X_between (f : t) (c lo hi : Q) :
  strictlyIncreasing f -> Forall (fun n => lo <= X n <= hi) f ->
  Forall (fun n => lo <= X n <= hi) (ClipMembershipFunction f c).
Proof.
  intros Hinc Hall. rewrite ClipMembershipFunction_unfold.
  destruct (Qle_bool 1 c); [exact Hall|].
  apply add_points_Forall_points.
  - exact (segments_crossingOf_between c lo hi f Hinc Hall).
  - apply Forall_map. eapply Forall_impl; [|exact Hall].
    cbn. intros n Hn. now rewrite clampNode_X.
Qed.

Lemma ClipMembershipFunction_nonnegative (f : t) (c : Q) :
  0 <= c -> Forall (fun n => 0 <= Y n) f ->
  Forall (fun n => 0 <= Y n) (ClipMembershipFunction f c).
Proof.
  intros Hc Hall. rewrite ClipMembershipFunction_unfold.
  destruct (Qle_bool 1 c); [exact Hall|].
  apply add_points_Forall; [intro x; exact Hc|].
  apply Forall_map. eapply Forall_impl; [|exact Hall].
  cbn. intros n Hn. unfold clampNode. now destruct (Qgtb (Y n) c).
Qed.

Lemma segments_centroid_between (lo hi : Q) (f : t) :
  strictlyIncreasing f -> Forall (fun n => 0 <= Y n) f ->
  Forall (fun n => lo <= X n <= hi) f ->
  Forall (fun p => lo <= snd p <= hi) (segments trapezoidOf f).
Proof.
  induction f as [|a f IH]; intros Hinc Hnonneg Hall; [constructor|].
  destruct f as [|b f]; [constructor|].
  rewrite segments_cons. destruct Hinc as [Hab Hinc].
  pose proof (Forall_inv Hall) as Ha.
  pose proof (Forall_inv (Forall_inv_tail Hall)) as Hb.
  pose proof (Forall_inv Hnonneg) as Hya.
  pose proof (Forall_inv (Forall_inv_tail Hnonneg)) as Hyb.
  apply Forall_app. split.
  - apply Forall_forall. intros p Hp.
    pose proof (trapezoidOf_centroid_between a b p Hab Hya Hyb Hp).
    cbn beta in *. lra.
  - apply IH;
      [exact Hinc | exact (Forall_inv_tail Hnonneg)
      | exact (Forall_inv_tail Hall)].
Qed.

(** The sums of the defuzzification stay in proportion: the weighted sum
    lies between the bounds of the centroids times the sum of the areas. *)
Lemma sumComponents_between (lo hi : Q) (pairs : list (Q * Q)) :
  Forall (fun p => 0 < fst p /\ lo <= snd p <= hi) pairs ->
  forall sums : Q * Q,
    lo * snd sums <= fst sums <= hi * snd sums ->
    let total :=
      fold_left
        (fun sums trapezoid =>
           (fst sums + fst trapezoid * snd trapezoid,
            snd sums + fst trapezoid))
        pairs sums in
    lo * snd total <= fst total <= hi * snd total.
Proof.
  induction 1 as [|p pairs [Hp Hc] Hpairs IH]; intros sums Hsums;
    cbn [fold_left]; [exact Hsums|].
  apply IH. cbn [fst snd]. split; nra.
Qed.

Lemma Forall_and {A : Type} (P R : A -> Prop) (l : list A) :
  Forall P l -> Forall R l -> Forall (fun a => P a /\ R a) l.
Proof.
  induction 1 as [|a l Ha Hl IH]; intro HR; [constructor|].
  constructor; [split; [exact Ha | exact (Forall_inv HR)]|].
  apply IH. exact (Forall_inv_tail HR).
Qed.

Lemma flat_map_Forall {A B : Type} (P : B -> Prop) (g : A -> list B)
  (l : list A) :
  Forall (fun a => Forall P (g a)) l -> Forall P (flat_map g l).
Proof.
  induction 1 as [|a l Ha Hl IH]; cbn; [constructor|].
  apply Forall_app. now split.
Qed.

(** The centre of mass of consequents with a positive total area lies in
    the range of their nodes. *)
Lemma centerOfMassOf_between (lo hi : Q) (consequents : list t) :
  Forall (fun f => strictlyIncreasing f /\ Forall (fun n => 0 <= Y n) f
                   /\ Forall (fun n => lo <= X n <= hi) f) consequents ->
  0 < totalArea consequents ->
  exists centerOfMass : Q,
    centerOfMassOf (areaCentroidPairs consequents) = Num centerOfMass
    /\ lo <= centerOfMass <= hi.
Proof.
  intros Hall Harea. unfold totalArea in Harea.
  unfold centerOfMassOf, fdiv.
  set (pairs := areaCentroidPairs consequents) in *.
  assert (Hpairs : Forall (fun p => 0 < fst p /\ lo <= snd p <= hi) pairs).
  { apply Forall_and; [apply areaCentroidPairs_positive|].
    unfold pairs, areaCentroidPairs. apply flat_map_Forall.
    eapply Forall_impl; [|exact Hall].
    cbn. intros f (Hinc & Hnonneg & Hx).
    rewrite forEachSegment_segments.
    now apply segments_centroid_between. }
  pose proof (sumComponents_between lo hi pairs Hpairs (0, 0)) as Hsum.
  cbn [fst snd] in Hsum. specialize (Hsum ltac:(lra)).
  change (fold_left _ pairs (0, 0)) with (sumComponents pairs) in Hsum.
  cbv zeta in Hsum.
  cases_on (Qeq_bool (snd (sumComponents pairs)) 0); [lra|].
  eexists. split; [reflexivity|].
  set (n := fst (sumComponents pairs)) in *.
  set (d := snd (sumComponents pairs)) in *.
  assert (Hq : (n / d) * d == n) by (apply Qdiv_mult_cancel; lra).
  split; nra.
Qed.

Lemma rounded_power_range (centerOfMass : Q) :
  -1.25 <= centerOfMass <= 2.25 ->
  (-1 <= Qfloor (centerOfMass + 0.5) <= 2)%Z.
Proof.
  intros [Hlo Hhi].
  pose proof (Qfloor_le (centerOfMass + 0.5)) as Hfloor.
  pose proof (Qlt_floor (centerOfMass + 0.5)) as Hceil.
  set (k := Qfloor (centerOfMass + 0.5)) in *.
  assert (Hup : inject_Z k < inject_Z 3).
  { change (inject_Z 3) with 3. lra. }
  assert (Hdown : inject_Z (-1) < inject_Z (k + 1)).
  { change (inject_Z (-1)) with (-1). lra. }
  rewrite <- Zlt_Qlt in Hup, Hdown. lia.
Qed.

Lemma canonicalConsequents_range :
  Forall (fun f => Forall (fun n => -1.25 <= X n <= 2.25) f)
         canonicalConsequents.
Proof.
  unfold canonicalConsequents.
  rewrite oversamplingLow_nodes, oversamplingNormal_nodes,
    oversamplingHigh_nodes, oversamplingVeryHigh_nodes.
  repeat constructor; cbn; lra.
Qed.

(** The clipped consequents of any two measures are in order, have no
    negative degree and stay in the range of the output functions. *)
Lemma Consequents_shape (relativeStructureSize complexityMeasure : Q) :
  Forall (fun f => strictlyIncreasing f /\ Forall (fun n => 0 <= Y n) f
                   /\ Forall (fun n => -1.25 <= X n <= 2.25) f)
         (Consequents relativeStructureSize complexityMeasure).
Proof.
  rewrite Consequents_strengths.
  pose proof (strengths_between relativeStructureSize complexityMeasure)
    as Hunit.
  pose proof canonicalConsequents_valid as Hvalid.
  pose proof canonicalConsequents_range as Hrange.
  set (values := strengths _) in *. clearbody values.
  revert values Hunit.
  induction Hvalid as [|f fs Hf Hfs IH]; intros values Hunit;
    [constructor|].
  destruct values as [|s values]; [constructor|].
  cbn [combine map fst snd].
  pose proof (Forall_inv Hunit) as Hs. cbn beta in Hs.
  destruct Hf as (Hinc & Hdeg & Hnonneg & _).
  constructor.
  - split; [|split].
    + exact (proj2 (ClipMembershipFunction_invariant f s Hinc Hdeg)).
    + apply ClipMembershipFunction_nonnegative; [lra | exact Hnonneg].
    + apply ClipMembershipFunction_X_between;
        [exact Hinc | exact (Forall_inv Hrange)].
  - apply IH; [exact (Forall_inv_tail Hrange) | exact (Forall_inv_tail Hunit)].
Qed.

Lemma factor_cases (relativeStructureSize complexityMeasure : Q) :
  In (fst (DetermineOversamplingFactor relativeStructureSize
                                       complexityMeasure))
     [Num (1 # 2); Num 1; Num 2; Num 4].
Proof.
  unfold DetermineOversamplingFactor.
  destruct (Qeq_bool relativeStructureSize (-1)
            || Qeq_bool complexityMeasure (-1)); cbn [fst];
    [right; left; reflexivity|].
  destruct (centerOfMassOf_between
              (-1.25) 2.25
              (Consequents relativeStructureSize complexityMeasure)
              (Consequents_shape relativeStructureSize complexityMeasure)
              (total_area_positive relativeStructureSize complexityMeasure))
    as (centerOfMass & Hcenter & Hrange).
  unfold factorOfConsequents. rewrite Hcenter. cbn [defuzzify].
  pose proof (rounded_power_range centerOfMass Hrange) as Hpower.
  set (power := Qfloor (centerOfMass + 0.5)) in *.
  assert (Hcases : power = (-1)%Z \/ power = 0%Z \/ power = 1%Z
                   \/ power = 2%Z) by lia.
  destruct Hcases as [-> | [-> | [-> | ->]]]; cbn; tauto.
Qed.

(** Whatever the two measures are, [DetermineOversamplingFactor] returns
    one of the four factors 0.5, 1, 2 and 4. *)
Theorem factor_is_one_of_four (relativeStructureSize complexityMeasure : Q) :
  In (fst (DetermineOversamplingFactor relativeStructureSize
                                       complexityMeasure))
     [Num (1 # 2); Num 1; Num 2; Num 4].
Proof. exact (factor_cases relativeStructureSize complexityMeasure). Qed.

(** ** Inference and scaling together *)

Lemma reasonable_factor_is_silent
  (toWorld : vtkOrientedImageData -> list double -> list double)
  (image : vtkOrientedImageData) (factor : Q)
  (result : option vtkOrientedImageData * list Diagnostic) :
  0.01 <= factor -> factor <= 100 ->
  ApplyOversamplingOnImageGeometry toWorld (Some image) factor = Some result ->
  snd result = [].
Proof.
  intros Hlow Hhigh H.
  unfold ApplyOversamplingOnImageGeometry, Qgtb in H.
  cases_on (Qltb factor 0.01); [lra|].
  cases_on (Qltb 100 factor); [lra|].
  cbn [orb] in H.
  destruct (negb (Qeq_bool factor 1)); [|now injection H as <-].
  peel H axis0 H0. peel H axis1 H1. peel H axis2 H2.
  now injection H as <-.
Qed.

(** A factor that [DetermineOversamplingFactor] returned is never
    rejected as unreasonable by [ApplyOversamplingOnImageGeometry]: the
    call writes no diagnostic. *)
Theorem inferred_factor_is_applied_silently
  (toWorld : vtkOrientedImageData -> list double -> list double)
  (image : vtkOrientedImageData)
  (relativeStructureSize complexityMeasure factor : Q)
  (result : option vtkOrientedImageData * list Diagnostic) :
  fst (DetermineOversamplingFactor relativeStructureSize complexityMeasure)
  = Num factor ->
  ApplyOversamplingOnImageGeometry toWorld (Some image) factor = Some result ->
  snd result = [].
Proof.
  intros Hfactor Hrun.
  pose proof (factor_cases relativeStructureSize complexityMeasure) as Hin.
  rewrite Hfactor in Hin. cbn [In] in Hin.
  assert (Hrange : 0.01 <= factor /\ factor <= 100).
  { destruct Hin as [H | [H | [H | [H | []]]]]; injection H as <-;
      split; discriminate. }
  destruct Hrange as [Hlow Hhigh].
  exact (reasonable_factor_is_silent toWorld image factor result
                                     Hlow Hhigh Hrun).
Qed.

Lemma inferred_factor_is_applied_silently_witness :
  exists result : option vtkOrientedImageData * list Diagnostic,
    ApplyOversamplingOnImageGeometry axisAlignedImageToWorld
      (Some tenVoxelGrid) 4
    = Some result
    /\ option_map Extent (fst result) = Some [0; 39; 0; 39; 0; 39]%Z
    /\ snd result = [].
Proof.
  eexists. split; [vm_compute; reflexivity|]. split; [reflexivity|].
  exact (inferred_factor_is_applied_silently
           axisAlignedImageToWorld tenVoxelGrid 4 0.1 4 _
           eq_refl eq_refl).
Defined.

(** ** Saturation *)

Lemma interpolate_right_end (n1 n2 : Node) (x : Q) :
  X n1 < X n2 -> x == X n2 -> interpolate n1 n2 x == Y n2.
Proof.
  intros Hx Hend.
  destruct (interpolate_fraction n1 n2 x Hx) as (s & -> & Hs).
  assert (Hone : s == 1) by nra.
  rewrite Hone. ring.
Qed.

Lemma segments_nonpositive (f : t) :
  strictlyIncreasing f -> degreesAtMost 0 f -> segments trapezoidOf f = [].
Proof.
  induction f as [|a f IH]; intros Hinc Hall; [reflexivity|].
  destruct f as [|b f]; [reflexivity|].
  rewrite segments_cons. destruct Hinc as [Hab Hinc].
  pose proof (Forall_inv Hall) as Ha.
  pose proof (Forall_inv (Forall_inv_tail Hall)) as Hb. cbn beta in Ha, Hb.
  rewrite trapezoidOf_nonpositive by assumption.
  rewrite IH; [reflexivity | exact Hinc | exact (Forall_inv_tail Hall)].
Qed.

(** A rule that does not fire contributes no trapezoid. *)
Lemma unfired_rule_has_no_area (f : t) (s : Q) :
  validOutput f -> s <= 0 ->
  forEachSegment (ClipMembershipFunction f s) trapezoidOf = [].
Proof.
  intros (Hinc & Hdeg & _) Hs. rewrite forEachSegment_segments.
  apply segments_nonpositive.
  - exact (proj2 (ClipMembershipFunction_invariant f s Hinc Hdeg)).
  - pose proof (ClipMembershipFunction_degrees f s ltac:(lra)) as Hd.
    eapply Forall_impl; [|exact Hd]. cbn. intros n Hn. lra.
Qed.

Lemma std_min_nonpositive_l (a b : Q) : a <= 0 -> std_min a b <= 0.
Proof. intro H. unfold std_min. cases_on (Qltb b a); lra. Qed.

Lemma validOutput_canonical (f : t) :
  In f canonicalConsequents -> validOutput f.
Proof.
  intro H. exact (proj1 (Forall_forall _ _) canonicalConsequents_valid f H).
Qed.

Ltac at_node_or_beyond :=
  cbn [GetValue valueFrom X Y];
  repeat match goal with
    | |- context [Qle_bool ?a ?b] => cases_on (Qle_bool a b)
    end;
  cbn [X Y] in *;
  try lra;
  try (rewrite interpolate_right_end; cbn [X Y]; lra).

Lemma sizeVerySmall_full (x : Q) : 3.75 <= x -> 1 <= GetValue sizeVerySmall x.
Proof. intro H. rewrite sizeVerySmall_nodes. at_node_or_beyond. Qed.

Lemma sizeSmall_none_above (x : Q) : 3.75 <= x -> GetValue sizeSmall x <= 0.
Proof. intro H. rewrite sizeSmall_nodes. at_node_or_beyond. Qed.

Lemma sizeMedium_none_above (x : Q) : 3 <= x -> GetValue sizeMedium x <= 0.
Proof. intro H. rewrite sizeMedium_nodes. at_node_or_beyond. Qed.

Lemma sizeLarge_none_above (x : Q) : 2 <= x -> GetValue sizeLarge x <= 0.
Proof. intro H. rewrite sizeLarge_nodes. at_node_or_beyond. Qed.

Lemma sizeLarge_full (x : Q) : x <= 0.5 -> 1 <= GetValue sizeLarge x.
Proof. intro H. rewrite sizeLarge_nodes. at_node_or_beyond. Qed.

Lemma sizeMedium_none_below (x : Q) : x <= 0.5 -> GetValue sizeMedium x <= 0.
Proof. intro H. rewrite sizeMedium_nodes. at_node_or_beyond. Qed.

Lemma sizeSmall_none_below (x : Q) : x <= 2.5 -> GetValue sizeSmall x <= 0.
Proof. intro H. rewrite sizeSmall_nodes. at_node_or_beyond. Qed.

Lemma sizeVerySmall_none_below (x : Q) :
  x <= 3.25 -> GetValue sizeVerySmall x <= 0.
Proof. intro H. rewrite sizeVerySmall_nodes. at_node_or_beyond. Qed.

Ltac canonical_output :=
  apply validOutput_canonical; unfold canonicalConsequents; cbn [In]; tauto.

(** A size measure of 3.75 or more (a very small structure) gives the
    factor 4 whatever the complexity measure is, the sentinel apart; a
    size measure of 0.5 or less (a large structure) that is not the
    sentinel gives the factor 0.5. *)
Theorem extreme_sizes_saturate (relativeStructureSize complexityMeasure : Q) :
  ~ complexityMeasure == -1 ->
  (3.75 <= relativeStructureSize ->
   DetermineOversamplingFactor relativeStructureSize complexityMeasure
   = (Num 4, []))
  /\ (relativeStructureSize <= 0.5 -> ~ relativeStructureSize == -1 ->
      DetermineOversamplingFactor relativeStructureSize complexityMeasure
      = (Num (1 # 2), [])).
Proof.
  intro Hc. split.
  - intro Hsize. unfold DetermineOversamplingFactor.
    cases_on (Qeq_bool relativeStructureSize (-1)); [lra|].
    cases_on (Qeq_bool complexityMeasure (-1)); [contradiction|].
    cbn [orb]. f_equal.
    unfold factorOfConsequents, areaCentroidPairs, Consequents, ApplyRules.
    cbn [flat_map rule1_OversamplingVeryHighClippingValue
           rule2_OversamplingHighClippingValue
           rule3_OversamplingHighClippingValue
           rule4_OversamplingNormalClippingValue
           rule5_OversamplingNormalClippingValue
           rule6_OversamplingLowClippingValue].
    rewrite (ClipMembershipFunction_at_least_one oversamplingVeryHigh)
      by (apply sizeVerySmall_full; exact Hsize).
    rewrite !(unfired_rule_has_no_area oversamplingHigh);
      [| canonical_output
       | apply std_min_nonpositive_l, sizeMedium_none_above; lra
       | canonical_output
       | apply std_min_nonpositive_l, sizeSmall_none_above; lra ].
    rewrite !(unfired_rule_has_no_area oversamplingNormal);
      [| canonical_output
       | apply std_min_nonpositive_l, sizeMedium_none_above; lra
       | canonical_output
       | apply std_min_nonpositive_l, sizeSmall_none_above; lra ].
    rewrite (unfired_rule_has_no_area oversamplingLow);
      [| canonical_output | apply sizeLarge_none_above; lra ].
    vm_compute. reflexivity.
  - intros Hsize Hs. unfold DetermineOversamplingFactor.
    cases_on (Qeq_bool relativeStructureSize (-1)); [contradiction|].
    cases_on (Qeq_bool complexityMeasure (-1)); [contradiction|].
    cbn [orb]. f_equal.
    unfold factorOfConsequents, areaCentroidPairs, Consequents, ApplyRules.
    cbn [flat_map rule1_OversamplingVeryHighClippingValue
           rule2_OversamplingHighClippingValue
           rule3_OversamplingHighClippingValue
           rule4_OversamplingNormalClippingValue
           rule5_OversamplingNormalClippingValue
           rule6_OversamplingLowClippingValue].
    rewrite (ClipMembershipFunction_at_least_one oversamplingLow)
      by (apply sizeLarge_full; exact Hsize).
    rewrite (unfired_rule_has_no_area oversamplingVeryHigh);
      [| canonical_output | apply sizeVerySmall_none_below; lra ].
    rewrite !(unfired_rule_has_no_area oversamplingHigh);
      [| canonical_output
       | apply std_min_nonpositive_l, sizeMedium_none_below; lra
       | canonical_output
       | apply std_min_nonpositive_l, sizeSmall_none_below; lra ].
    rewrite !(unfired_rule_has_no_area oversamplingNormal);
      [| canonical_output
       | apply std_min_nonpositive_l, sizeMedium_none_below; lra
       | canonical_output
       | apply std_min_nonpositive_l, sizeSmall_none_below; lra ].
    vm_compute. reflexivity.
Qed.

Lemma extreme_sizes_saturate_witness :
  DetermineOversamplingFactor 5 0.9 = (Num 4, [])
  /\ DetermineOversamplingFactor (-2) 0.3 = (Num (1 # 2), []).
Proof.
  split.
  - apply (proj1 (extreme_sizes_saturate 5 0.9 ltac:(discriminate))).
    discriminate.
  - apply (proj2 (extreme_sizes_saturate (-2) 0.3 ltac:(discriminate)));
      discriminate.
Defined.

(** ** The measures *)

Lemma complexity_with_inputs (self : vtkCalculateOversamplingFactor)
  (mesh : vtkPolyData) (massProperties : vtkMassProperties) :
  InputPolyData self = Some mesh ->
  MassPropertiesAlgorithm self = Some massProperties ->
  CalculateComplexityMeasure self
  = (std_max (GetNormalizedShapeIndex massProperties - 1) 0,
     [DebugComplexityMeasure])
  /\ 0 <= std_max (GetNormalizedShapeIndex massProperties - 1) 0.
Proof.
  intros Hmesh Hmass. unfold CalculateComplexityMeasure.
  rewrite Hmesh, Hmass. split; [reflexivity|].
  unfold std_max.
  cases_on (Qltb (GetNormalizedShapeIndex massProperties - 1) 0); lra.
Qed.

(** With the mesh and the mass properties present the complexity measure
    is never negative, so it is never the sentinel -1.0 of a failure: it
    is the normalized shape index minus one for an index of at least one,
    and zero below. *)
Theorem complexity_measure_is_not_negative
  (self : vtkCalculateOversamplingFactor) (mesh : vtkPolyData)
  (massProperties : vtkMassProperties) :
  InputPolyData self = Some mesh ->
  MassPropertiesAlgorithm self = Some massProperties ->
  let complexityMeasure := fst (CalculateComplexityMeasure self) in
  let normalizedShapeIndex := GetNormalizedShapeIndex massProperties in
  0 <= complexityMeasure
  /\ ~ complexityMeasure == -1
  /\ (1 <= normalizedShapeIndex ->
      complexityMeasure == normalizedShapeIndex - 1)
  /\ (normalizedShapeIndex <= 1 -> complexityMeasure == 0).
Proof.
  intros Hmesh Hmass.
  destruct (complexity_with_inputs self mesh massProperties Hmesh Hmass)
    as [-> Hpos].
  cbn [fst]. cbv zeta. split; [exact Hpos|]. split; [lra|].
  unfold std_max.
  cases_on (Qltb (GetNormalizedShapeIndex massProperties - 1) 0);
    split; intro; lra.
Qed.

Lemma complexity_measure_is_not_negative_witness :
  0 <= fst (CalculateComplexityMeasure
              (filterOf tenVoxelGrid (mkMassProperties 2 2 1.3)))
  /\ ~ fst (CalculateComplexityMeasure
              (filterOf tenVoxelGrid (mkMassProperties 2 2 1.3))) == -1
  /\ (1 <= 1.3 ->
      fst (CalculateComplexityMeasure
             (filterOf tenVoxelGrid (mkMassProperties 2 2 1.3)))
      == 1.3 - 1)
  /\ (1.3 <= 1 ->
      fst (CalculateComplexityMeasure
             (filterOf tenVoxelGrid (mkMassProperties 2 2 1.3)))
      == 0).
Proof.
  exact (complexity_measure_is_not_negative
           (filterOf tenVoxelGrid (mkMassProperties 2 2 1.3))
           PolyData (mkMassProperties 2 2 1.3) eq_refl eq_refl).
Defined.

Lemma missing_input_gives_sentinel (log10 : double -> double)
  (self : vtkCalculateOversamplingFactor) :
  InputPolyData self = None \/ ReferenceGeometryImageData self = None
  \/ MassPropertiesAlgorithm self = None ->
  (exists e : Diagnostic,
      CalculateRelativeStructureSize log10 self = Some (Num (-1), [e])
      /\ In e [ErrorInvalidInputPolyData; ErrorInvalidReferenceVolume;
               ErrorInvalidMassProperties])
  /\ (InputPolyData self = None \/ MassPropertiesAlgorithm self = None ->
      exists e : Diagnostic,
        CalculateComplexityMeasure self = (-1, [e])
        /\ In e [ErrorInvalidInputPolyData; ErrorInvalidMassProperties]).
Proof.
  intro H. unfold CalculateRelativeStructureSize, CalculateComplexityMeasure.
  split.
  - destruct (InputPolyData self) as [mesh|];
      [|eexists; split; [reflexivity | cbn; tauto]].
    destruct (ReferenceGeometryImageData self) as [reference|];
      [|eexists; split; [reflexivity | cbn; tauto]].
    destruct (MassPropertiesAlgorithm self) as [massProperties|];
      [|eexists; split; [reflexivity | cbn; tauto]].
    destruct H as [H|[H|H]]; discriminate.
  - intro H'.
    destruct (InputPolyData self) as [mesh|];
      [|eexists; split; [reflexivity | cbn; tauto]].
    destruct (MassPropertiesAlgorithm self) as [massProperties|];
      [|eexists; split; [reflexivity | cbn; tauto]].
    destruct H' as [H'|H']; discriminate.
Qed.

(** A measure function that misses one of its inputs writes one error and
    returns the sentinel -1.0, and [DetermineOversamplingFactor] answers a
    sentinel in either place with the default factor 1.0 and an error,
    whatever the other measure is. *)
Theorem missing_input_ends_in_default_factor (log10 : double -> double)
  (self : vtkCalculateOversamplingFactor) (otherMeasure : Q) :
  InputPolyData self = None \/ ReferenceGeometryImageData self = None
  \/ MassPropertiesAlgorithm self = None ->
  (exists e : Diagnostic,
      CalculateRelativeStructureSize log10 self = Some (Num (-1), [e])
      /\ In e [ErrorInvalidInputPolyData; ErrorInvalidReferenceVolume;
               ErrorInvalidMassProperties])
  /\ DetermineOversamplingFactor (-1) otherMeasure
     = (Num 1, [ErrorInvalidInputMeasures])
  /\ (InputPolyData self = None \/ MassPropertiesAlgorithm self = None ->
      (exists e : Diagnostic,
          CalculateComplexityMeasure self = (-1, [e])
          /\ In e [ErrorInvalidInputPolyData; ErrorInvalidMassProperties])
      /\ DetermineOversamplingFactor
           otherMeasure (fst (CalculateComplexityMeasure self))
         = (Num 1, [ErrorInvalidInputMeasures])).
Proof.
  intro H.
  destruct (missing_input_gives_sentinel log10 self H) as [Hsize Hcomplexity].
  split; [exact Hsize|]. split; [reflexivity|].
  intro H'. destruct (Hcomplexity H') as (e & He & Hin).
  split; [now exists e|].
  rewrite He. cbn [fst]. unfold DetermineOversamplingFactor.
  replace (Qeq_bool (-1) (-1)) with true by reflexivity.
  now rewrite orb_true_r.
Qed.

Lemma missing_input_ends_in_default_factor_witness :
  (exists e : Diagnostic,
      CalculateRelativeStructureSize
        log10AtPowers (mkFilter None (Some tenVoxelGrid) None)
      = Some (Num (-1), [e])
      /\ In e [ErrorInvalidInputPolyData; ErrorInvalidReferenceVolume;
               ErrorInvalidMassProperties])
  /\ DetermineOversamplingFactor (-1) 0.3
     = (Num 1, [ErrorInvalidInputMeasures]).
Proof.
  destruct (missing_input_ends_in_default_factor
              log10AtPowers (mkFilter None (Some tenVoxelGrid) None) 0.3
              (or_introl eq_refl)) as (Hsize & Hfactor & _).
  split; [exact Hsize | exact Hfactor].
Defined.

(** ** The driver *)

Lemma DetermineOversamplingFactorAt_finite (relativeStructureSize : Q)
  (complexityMeasure : Q) :
  DetermineOversamplingFactorAt (Num relativeStructureSize) complexityMeasure
  = DetermineOversamplingFactor relativeStructureSize complexityMeasure.
Proof. reflexivity. Qed.

(** At +inf the size functions have the degrees they have behind their
    last node, at -inf and at a NaN those they have before their first. *)
Lemma DetermineOversamplingFactorAt_PosInf (complexityMeasure : Q) :
  DetermineOversamplingFactorAt PosInf complexityMeasure
  = DetermineOversamplingFactor 4 complexityMeasure.
Proof. reflexivity. Qed.

Lemma DetermineOversamplingFactorAt_NegInf (complexityMeasure : Q) :
  DetermineOversamplingFactorAt NegInf complexityMeasure
  = DetermineOversamplingFactor 0 complexityMeasure.
Proof. reflexivity. Qed.

Lemma DetermineOversamplingFactorAt_NaN (complexityMeasure : Q) :
  DetermineOversamplingFactorAt NaN complexityMeasure
  = DetermineOversamplingFactor 0 complexityMeasure.
Proof. reflexivity. Qed.

Lemma factor_cases_at (relativeStructureSize : double) (complexityMeasure : Q) :
  In (fst (DetermineOversamplingFactorAt relativeStructureSize
                                         complexityMeasure))
     [Num (1 # 2); Num 1; Num 2; Num 4].
Proof.
  destruct relativeStructureSize as [size| | |].
  - rewrite DetermineOversamplingFactorAt_finite. apply factor_cases.
  - rewrite DetermineOversamplingFactorAt_PosInf. apply factor_cases.
  - rewrite DetermineOversamplingFactorAt_NegInf. apply factor_cases.
  - rewrite DetermineOversamplingFactorAt_NaN. apply factor_cases.
Qed.

(** How a run of [CalculateOversamplingFactor] that has a value ended. *)
Lemma CalculateOversamplingFactor_inversion
  (log10 : double -> double) (Update : vtkPolyData -> vtkMassProperties)
  (self self' : FilterState) (ok : bool) (diagnostics : list DriverDiagnostic) :
  CalculateOversamplingFactor log10 Update self
  = Some (ok, self', diagnostics) ->
  let reset := SetOutputOversamplingFactor (Num 1) self in
  (InputPolyData (Filter self) = None
   /\ ok = false /\ self' = reset
   /\ diagnostics = [DriverErrorInvalidInputPolyData])
  \/ (ReferenceGeometryImageData (Filter self) = None
      /\ ok = false /\ self' = reset
      /\ diagnostics = [DriverErrorInvalidReferenceVolume])
  \/ exists (mesh : vtkPolyData) (size : double * list Diagnostic),
      InputPolyData (Filter self) = Some mesh
      /\ ReferenceGeometryImageData (Filter self) <> None
      /\ let computed :=
           SetMassPropertiesAlgorithm (Some (Update mesh)) (Filter self) in
         CalculateRelativeStructureSize log10 computed = Some size
         /\ ((isSentinel (fst size) = true
              /\ ok = false /\ self' = SetFilter computed reset
              /\ diagnostics
                 = map Written (snd size) ++ [DriverErrorRelativeStructureSize])
             \/ (isSentinel (fst size) = false
                 /\ ok = true
                 /\ let complexity := CalculateComplexityMeasure computed in
                    let determined :=
                      DetermineOversamplingFactorAt (fst size)
                                                    (fst complexity) in
                    self'
                    = SetFilter
                        (SetMassPropertiesAlgorithm None computed)
                        (SetOutputOversamplingFactor
                           (fst determined) (SetFilter computed reset))
                    /\ diagnostics
                       = map Written (snd size)
                         ++ map Written (snd complexity)
                         ++ map Written (snd determined)
                         ++ [DriverDebugFactorCalculated]
                         ++ (if LogSpeedMeasurements self
                             then [DriverDebugSpeedMeasurements] else []))).
Proof.
  unfold CalculateOversamplingFactor. cbv zeta.
  cbn [Filter SetOutputOversamplingFactor SetFilter LogSpeedMeasurements].
  destruct (InputPolyData (Filter self)) as [mesh|] eqn:Hmesh;
    [|intro H; injection H as <- <- <-; left; repeat split].
  destruct (ReferenceGeometryImageData (Filter self)) as [reference|]
    eqn:Href;
    [|intro H; injection H as <- <- <-; right; left; repeat split].
  intro H. right. right. exists mesh.
  peel H size Hsize. exists size.
  split; [reflexivity|]. split; [discriminate|]. split; [exact Hsize|].
  destruct (isSentinel (fst size)) eqn:Hsentinel.
  - left. injection H as <- <- <-. repeat split.
  - right.
    destruct (complexity_with_inputs
                (SetMassPropertiesAlgorithm (Some (Update mesh)) (Filter self))
                mesh (Update mesh) Hmesh eq_refl) as [Hcomplexity Hpos].
    rewrite Hcomplexity in H |- *. cbn [fst snd] in H |- *.
    cases_on (Qeq_bool (std_max (GetNormalizedShapeIndex (Update mesh) - 1) 0)
                       (-1)); [lra|].
    injection H as <- <- <-. repeat split.
Qed.

(** The driver has a value whenever the voxel count of the reference
    geometry, if there is one, is computed without [int] overflow. *)
Lemma CalculateOversamplingFactor_defined
  (log10 : double -> double) (Update : vtkPolyData -> vtkMassProperties)
  (self : FilterState) :
  voxelCountDefined (Filter self) = true ->
  exists (ok : bool) (self' : FilterState)
         (diagnostics : list DriverDiagnostic),
    CalculateOversamplingFactor log10 Update self
    = Some (ok, self', diagnostics).
Proof.
  unfold voxelCountDefined, CalculateOversamplingFactor. cbv zeta.
  cbn [Filter SetOutputOversamplingFactor SetFilter LogSpeedMeasurements].
  destruct (InputPolyData (Filter self)) as [mesh|] eqn:Hmesh;
    [|intros _; eexists; eexists; eexists; reflexivity].
  destruct (ReferenceGeometryImageData (Filter self)) as [reference|]
    eqn:Href;
    [|intros _; eexists; eexists; eexists; reflexivity].
  intro Hfits. unfold SetMassPropertiesAlgorithm.
  rewrite Hmesh, Href. destruct mesh.
  change (mkFilter (Some PolyData) (Some reference) (Some (Update PolyData)))
    with (filterOf reference (Update PolyData)).
  rewrite (CalculateRelativeStructureSize_defined
             log10 reference (Update PolyData) Hfits).
  cbn [bind fst snd].
  destruct (isSentinel _); [eexists; eexists; eexists; reflexivity|].
  destruct (Qeq_bool _ (-1)); eexists; eexists; eexists; reflexivity.
Qed.

(** [CalculateOversamplingFactor] returns on every input (the voxel count
    of the reference geometry taken to fit an [int]), also when the size
    measure is an infinity or a NaN; the output factor is then one of 0.5,
    1, 2 and 4, and it is the safe value 1 when the call failed; after a
    success the mass properties algorithm is released; the two inputs are
    never changed. *)
Theorem driver_output_is_safe (log10 : double -> double)
  (Update : vtkPolyData -> vtkMassProperties) (self : FilterState) :
  voxelCountDefined (Filter self) = true ->
  exists (ok : bool) (self' : FilterState)
         (diagnostics : list DriverDiagnostic),
    CalculateOversamplingFactor log10 Update self
    = Some (ok, self', diagnostics)
    /\ In (OutputOversamplingFactor self') [Num (1 # 2); Num 1; Num 2; Num 4]
    /\ (ok = false -> OutputOversamplingFactor self' = Num 1)
    /\ (ok = true -> MassPropertiesAlgorithm (Filter self') = None)
    /\ InputPolyData (Filter self') = InputPolyData (Filter self)
    /\ ReferenceGeometryImageData (Filter self')
       = ReferenceGeometryImageData (Filter self).
Proof.
  intro Hfits.
  destruct (CalculateOversamplingFactor_defined log10 Update self Hfits)
    as (ok & self' & diagnostics & Hrun).
  exists ok, self', diagnostics. split; [exact Hrun|].
  apply CalculateOversamplingFactor_inversion in Hrun. cbv zeta in Hrun.
  destruct Hrun as [(_ & -> & -> & _) | [(_ & -> & -> & _) | H]].
  - cbn. repeat split; try tauto; discriminate.
  - cbn. repeat split; try tauto; discriminate.
  - destruct H as (mesh & size & _ & _ & _ & H).
    destruct H as [(_ & -> & -> & _) | (_ & -> & -> & _)].
    + cbn. repeat split; try tauto; discriminate.
    + cbn [OutputOversamplingFactor SetFilter SetOutputOversamplingFactor
             Filter SetMassPropertiesAlgorithm MassPropertiesAlgorithm
             InputPolyData ReferenceGeometryImageData].
      split; [apply factor_cases_at|]. repeat split; discriminate.
Qed.

(** A mesh of volume 0: the size measure is +inf, the call succeeds and
    the factor is 4. *)
Lemma zero_volume_mesh_gets_factor_4 :
  exists (self' : FilterState) (diagnostics : list DriverDiagnostic),
    CalculateRelativeStructureSize
      log10AtPowers (filterOf tenVoxelGrid (mkMassProperties 0 0 1.7))
    = Some (PosInf, [DebugRelativeStructureSize])
    /\ CalculateOversamplingFactor
         log10AtPowers (fun _ => mkMassProperties 0 0 1.7)
         (mkFilterState (mkFilter (Some PolyData) (Some tenVoxelGrid) None)
                        (Num 8) false)
       = Some (true, self', diagnostics)
    /\ OutputOversamplingFactor self' = Num 4.
Proof.
  eexists. eexists. split; [reflexivity|].
  split; [vm_compute; reflexivity | reflexivity].
Qed.

Lemma driver_output_is_safe_witness :
  exists (ok : bool) (self' : FilterState)
         (diagnostics : list DriverDiagnostic),
    CalculateOversamplingFactor
      log10AtPowers (fun _ => mkMassProperties 0 0 1.7)
      (mkFilterState (mkFilter (Some PolyData) (Some tenVoxelGrid) None)
                     (Num 8) false)
    = Some (ok, self', diagnostics)
    /\ In (OutputOversamplingFactor self') [Num (1 # 2); Num 1; Num 2; Num 4]
    /\ (ok = false -> OutputOversamplingFactor self' = Num 1)
    /\ (ok = true -> MassPropertiesAlgorithm (Filter self') = None)
    /\ InputPolyData (Filter self') = Some PolyData
    /\ ReferenceGeometryImageData (Filter self') = Some tenVoxelGrid.
Proof.
  exact (driver_output_is_safe
           log10AtPowers (fun _ => mkMassProperties 0 0 1.7)
           (mkFilterState (mkFilter (Some PolyData) (Some tenVoxelGrid) None)
                          (Num 8) false)
           eq_refl).
Defined.

Lemma not_in_Written (e : DriverDiagnostic) (l : list Diagnostic) :
  (forall d, e <> Written d) -> ~ In e (map Written l).
Proof.
  intros Hne Hin. apply in_map_iff in Hin. destruct Hin as (d & Hd & _).
  exact (Hne d (eq_sym Hd)).
Qed.

Ltac not_written :=
  repeat match goal with
    | H : In _ (_ ++ _) |- _ => apply in_app_or in H; destruct H as [H|H]
    | H : In _ (map Written _) |- _ =>
        exfalso; revert H; apply not_in_Written; discriminate
    | H : In _ (if ?b then _ else _) |- _ => destruct b
    | H : In _ (_ :: _) |- _ => destruct H as [H|H]; [try discriminate|]
    | H : In _ [] |- _ => destruct H
    end.

Lemma isSentinel_true (d : double) :
  isSentinel d = true <-> exists q : Q, d = Num q /\ q == -1.
Proof.
  split.
  - destruct d as [q| | |]; cbn; try discriminate.
    intro H. exists q. split; [reflexivity | now apply Qeq_bool_iff].
  - intros (q & -> & Hq). cbn. now apply Qeq_bool_iff.
Qed.

(** [CalculateOversamplingFactor] never reports a failed complexity
    measure: it fails exactly when the mesh is missing, the reference
    geometry is missing, or the size measure that
    [CalculateRelativeStructureSize] returns for the mesh equals the
    sentinel -1.0. *)
Theorem driver_fails_on_inputs_or_size_only (log10 : double -> double)
  (Update : vtkPolyData -> vtkMassProperties) (self : FilterState) :
  voxelCountDefined (Filter self) = true ->
  exists (ok : bool) (self' : FilterState)
         (diagnostics : list DriverDiagnostic),
    CalculateOversamplingFactor log10 Update self
    = Some (ok, self', diagnostics)
    /\ ~ In DriverErrorComplexityMeasure diagnostics
    /\ (ok = false
        <-> InputPolyData (Filter self) = None
            \/ ReferenceGeometryImageData (Filter self) = None
            \/ exists (mesh : vtkPolyData) (sizeMeasure : Q)
                      (written : list Diagnostic),
                InputPolyData (Filter self) = Some mesh
                /\ CalculateRelativeStructureSize
                     log10
                     (SetMassPropertiesAlgorithm (Some (Update mesh))
                                                 (Filter self))
                   = Some (Num sizeMeasure, written)
                /\ sizeMeasure == -1).
Proof.
  intro Hfits.
  destruct (CalculateOversamplingFactor_defined log10 Update self Hfits)
    as (ok & self' & diagnostics & Hrun).
  exists ok, self', diagnostics. split; [exact Hrun|].
  apply CalculateOversamplingFactor_inversion in Hrun. cbv zeta in Hrun.
  destruct Hrun as [(Hnone & -> & _ & ->) | [(Hnone & -> & _ & ->) | H]].
  - split; [intro H; not_written | tauto].
  - split; [intro H; not_written | tauto].
  - destruct H as (mesh & size & Hmesh & Href & Hsize & H).
    destruct H as [(Hsentinel & -> & _ & ->) | (Hsentinel & -> & _ & ->)].
    + split; [intro H; not_written|].
      split; [intros _|reflexivity].
      right. right. apply isSentinel_true in Hsentinel.
      destruct Hsentinel as (q & Hq & Hminus).
      exists mesh, q, (snd size). split; [exact Hmesh|].
      split; [|exact Hminus].
      rewrite Hsize, <- Hq. now destruct size.
    + split; [intro H; not_written|].
      split; [discriminate|].
      intros [H | [H | H]]; [congruence | contradiction |].
      destruct H as (mesh' & q & written & Hmesh' & Hsize' & Hminus).
      rewrite Hmesh in Hmesh'. injection Hmesh' as <-.
      rewrite Hsize in Hsize'. injection Hsize' as ->.
      cbn [fst isSentinel] in Hsentinel.
      apply Qeq_bool_iff in Hminus. congruence.
Qed.

(** A mesh whose volume is ten times that of the reference grid: the size
    measure is -1.0 and the call fails. *)
Lemma driver_fails_on_inputs_or_size_only_witness :
  exists (ok : bool) (self' : FilterState)
         (diagnostics : list DriverDiagnostic),
    CalculateOversamplingFactor
      log10AtPowers (fun _ => mkMassProperties 10000 10000 1.7)
      (mkFilterState (mkFilter (Some PolyData) (Some tenVoxelGrid) None)
                     (Num 8) false)
    = Some (ok, self', diagnostics)
    /\ ~ In DriverErrorComplexityMeasure diagnostics
    /\ (ok = false
        <-> Some PolyData = None
            \/ Some tenVoxelGrid = None
            \/ exists (mesh : vtkPolyData) (sizeMeasure : Q)
                      (written : list Diagnostic),
                Some PolyData = Some mesh
                /\ CalculateRelativeStructureSize
                     log10AtPowers
                     (mkFilter (Some PolyData) (Some tenVoxelGrid)
                               (Some (mkMassProperties 10000 10000 1.7)))
                   = Some (Num sizeMeasure, written)
                /\ sizeMeasure == -1).
Proof.
  exact (driver_fails_on_inputs_or_size_only
           log10AtPowers (fun _ => mkMassProperties 10000 10000 1.7)
           (mkFilterState (mkFilter (Some PolyData) (Some tenVoxelGrid) None)
                          (Num 8) false)
           eq_refl).
Defined.

(** A structure whose size measure comes out as exactly -1.0 (its volume
    is ten times the reference volume, the decimal logarithm of the ratio
    is 1) is taken for a failure although every input is present:
    [CalculateOversamplingFactor] returns false and leaves the factor 1. *)
Theorem size_measure_can_collide_with_sentinel (log10 : double -> double)
  (Update : vtkPolyData -> vtkMassProperties) (self : FilterState)
  (mesh : vtkPolyData) (reference : vtkOrientedImageData) :
  InputPolyData (Filter self) = Some mesh ->
  ReferenceGeometryImageData (Filter self) = Some reference ->
  voxelCountFits reference = true ->
  log10 (ddiv (Num (GetVolume (Update mesh))) (referenceVolume reference))
  = Num 1 ->
  exists (self' : FilterState) (diagnostics : list DriverDiagnostic),
    CalculateOversamplingFactor log10 Update self
    = Some (false, self', diagnostics)
    /\ In DriverErrorRelativeStructureSize diagnostics
    /\ OutputOversamplingFactor self' = Num 1.
Proof.
  intros Hmesh Href Hfits Hlog.
  unfold CalculateOversamplingFactor. cbv zeta.
  cbn [Filter SetOutputOversamplingFactor SetFilter].
  rewrite Hmesh, Href. unfold SetMassPropertiesAlgorithm.
  rewrite Hmesh, Href. destruct mesh.
  change (mkFilter (Some PolyData) (Some reference) (Some (Update PolyData)))
    with (filterOf reference (Update PolyData)).
  rewrite (CalculateRelativeStructureSize_defined
             log10 reference (Update PolyData) Hfits).
  rewrite Hlog. cbn [bind fst snd fneg isSentinel].
  replace (Qeq_bool (-1 * 1) (-1)) with true by reflexivity.
  eexists. eexists. split; [reflexivity|].
  split; [|reflexivity].
  apply in_or_app. right. now left.
Qed.

Lemma size_measure_can_collide_with_sentinel_witness :
  exists (self' : FilterState) (diagnostics : list DriverDiagnostic),
    CalculateOversamplingFactor
      log10AtPowers (fun _ => mkMassProperties 10000 10000 1.2)
      (mkFilterState (mkFilter (Some PolyData) (Some tenVoxelGrid) None)
                     (Num 2) false)
    = Some (false, self', diagnostics)
    /\ In DriverErrorRelativeStructureSize diagnostics
    /\ OutputOversamplingFactor self' = Num 1.
Proof.
  exact (size_measure_can_collide_with_sentinel
           log10AtPowers (fun _ => mkMassProperties 10000 10000 1.2)
           (mkFilterState (mkFilter (Some PolyData) (Some tenVoxelGrid) None)
                          (Num 2) false)
           PolyData tenVoxelGrid eq_refl eq_refl eq_refl eq_refl).
Defined.

(** ** What clipping does to the function *)

Lemma StronglySorted_suffix (pre suf : t) :
  StronglySorted Xlt (pre ++ suf) -> StronglySorted Xlt suf.
Proof.
  induction pre as [|p pre IH]; cbn; intro H; [exact H|].
  apply StronglySorted_inv in H. exact (IH (proj1 H)).
Qed.

Lemma RemovePoint_absent (x : Q) (f : t) :
  Forall (fun m => ~ X m == x) f -> RemovePoint x f = f.
Proof.
  induction 1 as [|m f Hm Hf IH]; cbn; [reflexivity|].
  cases_on (Qeq_bool (X m) x); [contradiction | now rewrite IH].
Qed.

Lemma insertNode_app (n : Node) (pre suf : t) :
  Forall (fun m => X m <= X n) pre ->
  insertNode n (pre ++ suf) = pre ++ insertNode n suf.
Proof.
  induction 1 as [|m pre Hm Hpre IH]; cbn; [reflexivity|].
  cases_on (Qltb (X n) (X m)); [lra | now rewrite IH].
Qed.

(** A point strictly between two neighbours is added between them. *)
Lemma AddPoint_between (pre suf : t) (u v : Node) (p y : Q) :
  StronglySorted Xlt (pre ++ u :: v :: suf) -> X u < p -> p < X v ->
  AddPoint p y (pre ++ u :: v :: suf) = pre ++ u :: mkNode p y :: v :: suf.
Proof.
  intros Hs Hu Hv.
  pose proof (StronglySorted_prefix_below pre (v :: suf) u Hs) as Hpre.
  pose proof (StronglySorted_suffix (pre ++ [u]) (v :: suf)) as Hsuf.
  rewrite <- app_assoc in Hsuf. specialize (Hsuf Hs).
  apply StronglySorted_inv in Hsuf. destruct Hsuf as [_ Hafter].
  rewrite AddPoint_shape, RemovePoint_absent.
  - rewrite SortAndUpdateRange_sorted by exact Hs.
    change (pre ++ u :: v :: suf) with (pre ++ [u] ++ v :: suf).
    rewrite app_assoc, insertNode_app.
    + cbn [insertNode X]. rewrite (Qltb_true p (X v) Hv).
      now rewrite <- app_assoc.
    + apply Forall_app. split.
      * eapply Forall_impl; [|exact Hpre]. cbn. intros m Hm. lra.
      * repeat constructor. cbn. lra.
  - apply Forall_app. split.
    + eapply Forall_impl; [|exact Hpre]. cbn. intros m Hm. lra.
    + constructor; [lra|]. constructor; [lra|].
      eapply Forall_impl; [|exact Hafter].
      intros m Hm. unfold Xlt in Hm. lra.
Qed.

Lemma clipNodes_cons (c : Q) (a b : Node) (rest : t) :
  clipNodes c (a :: b :: rest)
  = clampNode c a
    :: map (fun point => mkNode point c) (crossingOf c a b)
    ++ clipNodes c (b :: rest).
Proof. reflexivity. Qed.

Lemma crossingOf_at_most_one (c : Q) (a b : Node) :
  crossingOf c a b = [] \/ exists p, crossingOf c a b = [p].
Proof.
  unfold crossingOf. destruct (_ || _); [right; eexists; reflexivity | now left].
Qed.

Lemma add_crossings (c : Q) :
  forall (f pre : t),
    strictlyIncreasing f ->
    StronglySorted Xlt (pre ++ map (clampNode c) f) ->
    fold_left (fun g point => AddPoint point c g)
              (segments (crossingOf c) f) (pre ++ map (clampNode c) f)
    = pre ++ clipNodes c f.
Proof.
  induction f as [|a f IH]; intros pre Hinc Hs; [reflexivity|].
  destruct f as [|b f]; [reflexivity|].
  rewrite segments_cons, fold_left_app, clipNodes_cons.
  destruct Hinc as [Hab Hinc].
  destruct (crossingOf_at_most_one c a b) as [Hnone | [p Hone]].
  - rewrite Hnone. cbn [fold_left].
    change (map (fun point => mkNode point c) [] ++ clipNodes c (b :: f))
      with (clipNodes c (b :: f)).
    change (pre ++ map (clampNode c) (a :: b :: f))
      with (pre ++ [clampNode c a] ++ map (clampNode c) (b :: f)) in Hs |- *.
    rewrite app_assoc in Hs |- *. rewrite (IH _ Hinc Hs).
    now rewrite <- app_assoc.
  - rewrite Hone. cbn [fold_left].
    change (map (fun point => mkNode point c) [p] ++ clipNodes c (b :: f))
      with (mkNode p c :: clipNodes c (b :: f)).
    assert (Hp : X a < p < X b).
    { apply (crossingOf_between c a b p Hab). rewrite Hone. now left. }
    change (map (clampNode c) (a :: b :: f))
      with (clampNode c a :: clampNode c b :: map (clampNode c) f)
      in Hs |- *.
    pose proof (AddPoint_sorted p c _ Hs) as Hs'.
    rewrite AddPoint_between in Hs' |- *;
      try exact Hs; try (rewrite clampNode_X; lra).
    change (pre ++ clampNode c a :: mkNode p c
                :: clampNode c b :: map (clampNode c) f)
      with (pre ++ [clampNode c a; mkNode p c]
                ++ map (clampNode c) (b :: f)) in Hs' |- *.
    rewrite app_assoc in Hs' |- *. rewrite (IH _ Hinc Hs').
    now rewrite <- app_assoc.
Qed.

(** Below a clip value of one, the clipped function has the nodes of
    [clipNodes]. *)
Lemma ClipMembershipFunction_clipNodes (f : t) (c : Q) :
  strictlyIncreasing f -> c < 1 ->
  ClipMembershipFunction f c = clipNodes c f.
Proof.
  intros Hinc Hc. rewrite ClipMembershipFunction_unfold.
  cases_on (Qle_bool 1 c); [lra|].
  apply (add_crossings c f [] Hinc). cbn [app].
  now apply map_clampNode_sorted, strictlyIncreasing_StronglySorted.
Qed.

Lemma clampNode_Y_min (c : Q) (a : Node) :
  Y (clampNode c a) == Qmin (Y a) c.
Proof.
  unfold clampNode, Qgtb. cases_on (Qltb c (Y a)); cbn [Y].
  - rewrite Q.min_r; [reflexivity | lra].
  - rewrite Q.min_l; [reflexivity | exact E].
Qed.

Lemma interpolate_constant (u v : Node) (x c : Q) :
  X u < X v -> Y u == c -> Y v == c -> interpolate u v x == c.
Proof.
  intros Hx Hu Hv.
  destruct (interpolate_fraction u v x Hx) as (s & -> & _).
  rewrite Hu, Hv. ring.
Qed.

(** The sign of a segment's value minus the clip value is that of the
    distance to the crossing times the slope. *)
Lemma interpolate_versus_crossing (a b : Node) (x c : Q) :
  X a < X b -> ~ Y a == Y b ->
  (interpolate a b x - c) * (X b - X a)
  == (x - ((X b - X a) * (Y a - c) / (Y a - Y b) + X a)) * (Y b - Y a).
Proof.
  intros Hx Hy. unfold interpolate. field. split; lra.
Qed.

(** A segment and its part up to the crossing, or from the crossing on,
    are the same line. *)
Lemma interpolate_to_crossing (a b : Node) (x c : Q) :
  X a < X b -> ~ Y a == Y b -> ~ Y a == c ->
  interpolate a (mkNode ((X b - X a) * (Y a - c) / (Y a - Y b) + X a) c) x
  == interpolate a b x.
Proof.
  intros Hx Hy Hc. unfold interpolate. cbn [X Y]. field.
  repeat split; try lra.
  intro H. apply Hc.
  assert (H' : (X b - X a) * (Y a - c) == 0) by lra.
  nra.
Qed.

Lemma interpolate_from_crossing (a b : Node) (x c : Q) :
  X a < X b -> ~ Y a == Y b -> ~ Y b == c ->
  interpolate (mkNode ((X b - X a) * (Y a - c) / (Y a - Y b) + X a) c) b x
  == interpolate a b x.
Proof.
  intros Hx Hy Hc. unfold interpolate. cbn [X Y]. field.
  repeat split; try lra.
  intro H. apply Hc.
  assert (H' : (X b - X a) * (Y b - c) == 0) by lra.
  nra.
Qed.

Lemma interpolate_at_most (a b : Node) (x c : Q) :
  X a < x -> x <= X b -> Y a <= c -> Y b <= c -> interpolate a b x <= c.
Proof.
  intros H1 H2 Ha Hb.
  destruct (interpolate_fraction a b x) as (s & -> & Hs); [lra|].
  assert (0 < s) by nra. assert (s <= 1) by nra. nra.
Qed.

Lemma interpolate_at_least (a b : Node) (x c : Q) :
  X a < x -> x <= X b -> c <= Y a -> c <= Y b -> c <= interpolate a b x.
Proof.
  intros H1 H2 Ha Hb.
  destruct (interpolate_fraction a b x) as (s & -> & Hs); [lra|].
  assert (0 < s) by nra. assert (s <= 1) by nra. nra.
Qed.

Lemma valueFrom_at_most (c : Q) (rest : list Node) :
  forall (a : Node) (x : Q),
    X a < x -> degreesAtMost c (a :: rest) -> valueFrom a rest x <= c.
Proof.
  induction rest as [|b rest IH]; intros a x Hx Hall; cbn [valueFrom].
  - exact (Forall_inv Hall).
  - pose proof (Forall_inv Hall) as Ha.
    pose proof (Forall_inv_tail Hall) as Htail.
    pose proof (Forall_inv Htail) as Hb. cbn beta in Ha, Hb.
    cases_on (Qle_bool x (X b)).
    + now apply interpolate_at_most.
    + now apply IH.
Qed.

Lemma GetValue_at_most (f : t) (x c : Q) :
  f <> [] -> degreesAtMost c f -> GetValue f x <= c.
Proof.
  intros Hne Hall. destruct f as [|a rest]; [congruence|]. cbn [GetValue].
  cases_on (Qle_bool x (X a)).
  - exact (Forall_inv Hall).
  - now apply valueFrom_at_most.
Qed.

Lemma no_crossing_cases (c : Q) (a b : Node) :
  crossingOf c a b = [] ->
  (Y a <= c /\ Y b <= c) \/ (c <= Y a /\ c <= Y b).
Proof.
  unfold crossingOf, Qgtb.
  cases_on (Qltb (Y a) c); cases_on (Qltb c (Y b));
    cases_on (Qltb c (Y a)); cases_on (Qltb (Y b) c);
    cbn [andb orb]; try discriminate; intros _;
    first [left; split; lra | right; split; lra].
Qed.

Lemma crossing_cases (c p : Q) (a b : Node) :
  crossingOf c a b = [p] ->
  p = (X b - X a) * (Y a - c) / (Y a - Y b) + X a
  /\ ((Y a < c /\ c < Y b) \/ (c < Y a /\ Y b < c)).
Proof.
  unfold crossingOf, Qgtb.
  cases_on (Qltb (Y a) c); cases_on (Qltb c (Y b));
    cases_on (Qltb c (Y a)); cases_on (Qltb (Y b) c);
    cbn [andb orb]; try discriminate; intro H; injection H as <-;
    (split; [reflexivity|]); first [left; split; lra | right; split; lra].
Qed.

Lemma Qmin_is_left (a c : Q) : a <= c -> Qmin a c == a.
Proof. apply Q.min_l. Qed.

Lemma Qmin_is_right (a c : Q) : c <= a -> Qmin a c == c.
Proof. apply Q.min_r. Qed.

Lemma clampNode_above (c : Q) (a : Node) : c <= Y a -> Y (clampNode c a) == c.
Proof. intro H. rewrite clampNode_Y_min. now apply Qmin_is_right. Qed.

Lemma segment_without_crossing (c x : Q) (a b : Node) :
  X a < x -> x <= X b -> crossingOf c a b = [] ->
  interpolate (clampNode c a) (clampNode c b) x
  == Qmin (interpolate a b x) c.
Proof.
  intros H1 H2 Hnone.
  destruct (no_crossing_cases c a b Hnone) as [[Ha Hb] | [Ha Hb]].
  - rewrite !clampNode_below by assumption.
    symmetry. apply Qmin_is_left. now apply interpolate_at_most.
  - rewrite interpolate_constant with (c := c);
      [| rewrite !clampNode_X; lra | now apply clampNode_above
       | now apply clampNode_above ].
    symmetry. apply Qmin_is_right. now apply interpolate_at_least.
Qed.

Lemma segment_before_crossing (c p x : Q) (a b : Node) :
  X a < X b -> X a < x -> x <= p -> crossingOf c a b = [p] ->
  interpolate (clampNode c a) (mkNode p c) x == Qmin (interpolate a b x) c.
Proof.
  intros Hab H1 H2 Hone.
  assert (Hp : X a < p < X b).
  { apply (crossingOf_between c a b p Hab). rewrite Hone. now left. }
  destruct (crossing_cases c p a b Hone) as [Hformula Hcases].
  pose proof (interpolate_versus_crossing a b x c Hab) as Hsign.
  rewrite <- Hformula in Hsign.
  destruct Hcases as [[Ha Hb] | [Ha Hb]]; specialize (Hsign ltac:(lra)).
  - rewrite clampNode_below by lra. rewrite Hformula.
    rewrite interpolate_to_crossing by lra.
    symmetry. apply Qmin_is_left. nra.
  - rewrite interpolate_constant with (c := c);
      [| rewrite clampNode_X; cbn [X]; lra | apply clampNode_above; lra
       | reflexivity ].
    symmetry. apply Qmin_is_right. nra.
Qed.

Lemma segment_after_crossing (c p x : Q) (a b : Node) :
  X a < X b -> p < x -> x <= X b -> crossingOf c a b = [p] ->
  interpolate (mkNode p c) (clampNode c b) x == Qmin (interpolate a b x) c.
Proof.
  intros Hab H1 H2 Hone.
  assert (Hp : X a < p < X b).
  { apply (crossingOf_between c a b p Hab). rewrite Hone. now left. }
  destruct (crossing_cases c p a b Hone) as [Hformula Hcases].
  pose proof (interpolate_versus_crossing a b x c Hab) as Hsign.
  rewrite <- Hformula in Hsign.
  destruct Hcases as [[Ha Hb] | [Ha Hb]]; specialize (Hsign ltac:(lra)).
  - rewrite interpolate_constant with (c := c);
      [| rewrite clampNode_X; cbn [X]; lra | reflexivity
       | apply clampNode_above; lra ].
    symmetry. apply Qmin_is_right. nra.
  - rewrite clampNode_below by lra. rewrite Hformula.
    rewrite interpolate_from_crossing by lra.
    symmetry. apply Qmin_is_left. nra.
Qed.

Lemma clipNodes_head (c : Q) (a : Node) (rest : t) :
  clipNodes c (a :: rest) = clampNode c a :: tl (clipNodes c (a :: rest)).
Proof. reflexivity. Qed.

Lemma clipNodes_tail (c : Q) (a b : Node) (rest : t) :
  tl (clipNodes c (a :: b :: rest))
  = map (fun point => mkNode point c) (crossingOf c a b)
    ++ clampNode c b :: tl (clipNodes c (b :: rest)).
Proof. reflexivity. Qed.

Lemma valueFrom_cons (n1 n2 : Node) (rest : list Node) (x : Q) :
  valueFrom n1 (n2 :: rest) x
  = if Qle_bool x (X n2) then interpolate n1 n2 x else valueFrom n2 rest x.
Proof. reflexivity. Qed.

Lemma valueFrom_clipNodes (c : Q) (rest : list Node) :
  forall (a : Node) (x : Q),
    strictlyIncreasing (a :: rest) -> X a < x ->
    valueFrom (clampNode c a) (tl (clipNodes c (a :: rest))) x
    == Qmin (valueFrom a rest x) c.
Proof.
  induction rest as [|b rest IH]; intros a x Hinc Hx.
  - cbn [clipNodes tl valueFrom]. apply clampNode_Y_min.
  - destruct Hinc as [Hab Hinc].
    rewrite clipNodes_tail, (valueFrom_cons a b).
    destruct (crossingOf_at_most_one c a b) as [Hnone | [p Hone]].
    + rewrite Hnone. cbn [map app]. rewrite valueFrom_cons, clampNode_X.
      cases_on (Qle_bool x (X b)).
      * now apply segment_without_crossing.
      * now apply IH.
    + rewrite Hone. cbn [map app].
      assert (Hp : X a < p < X b).
      { apply (crossingOf_between c a b p Hab). rewrite Hone. now left. }
      rewrite !valueFrom_cons, clampNode_X. cbn [X].
      cases_on (Qle_bool x p).
      * cases_on (Qle_bool x (X b)); [|lra].
        now apply segment_before_crossing.
      * cases_on (Qle_bool x (X b)).
        -- now apply segment_after_crossing.
        -- now apply IH.
Qed.

(** Clipping takes the minimum with the clip value: at every argument the
    clipped membership function has the value of the function or the clip
    value, whichever is less (for a function with at least one node,
    nodes in increasing order and no degree above 1). *)
Theorem clipping_is_pointwise_minimum (f : t) (clipValue x : Q) :
  strictlyIncreasing f -> degreesAtMost 1 f -> f <> [] ->
  GetValue (ClipMembershipFunction f clipValue) x
  == Qmin (GetValue f x) clipValue.
Proof.
  intros Hinc Hdeg Hne.
  destruct (Qlt_le_dec clipValue 1) as [Hc | Hc].
  - rewrite ClipMembershipFunction_clipNodes by assumption.
    destruct f as [|a rest]; [congruence|].
    rewrite clipNodes_head. cbn [GetValue]. rewrite clampNode_X.
    cases_on (Qle_bool x (X a)).
    + apply clampNode_Y_min.
    + now apply valueFrom_clipNodes.
  - rewrite ClipMembershipFunction_at_least_one by exact Hc.
    symmetry. apply Qmin_is_left.
    apply Qle_trans with 1; [|exact Hc].
    now apply GetValue_at_most.
Qed.

Lemma clipping_is_pointwise_minimum_witness :
  GetValue (ClipMembershipFunction oversamplingHigh 0.4) 0.3
  == Qmin (GetValue oversamplingHigh 0.3) 0.4
  /\ GetValue (ClipMembershipFunction oversamplingHigh 0.4) 1.6
     == Qmin (GetValue oversamplingHigh 1.6) 0.4.
Proof.
  split;
    apply (clipping_is_pointwise_minimum oversamplingHigh 0.4);
    try discriminate;
    try (cbn; repeat split; reflexivity);
    repeat constructor; discriminate.
Defined.

(** ** Plateaus of the input functions *)

Ltac on_plateau :=
  cbn [GetValue valueFrom X Y];
  repeat match goal with
    | |- context [Qle_bool ?a ?b] => cases_on (Qle_bool a b)
    end;
  cbn [X Y] in *;
  try lra;
  try (rewrite interpolate_right_end; cbn [X Y]; lra);
  try (apply interpolate_at_least; cbn [X Y]; lra).

Lemma sizeMedium_full (x : Q) :
  2 <= x -> x <= 2.5 -> 1 <= GetValue sizeMedium x.
Proof. intros H1 H2. rewrite sizeMedium_nodes. on_plateau. Qed.

Lemma sizeSmall_full (x : Q) :
  3 <= x -> x <= 3.25 -> 1 <= GetValue sizeSmall x.
Proof. intros H1 H2. rewrite sizeSmall_nodes. on_plateau. Qed.

Lemma complexityLow_full (x : Q) : x <= 0.2 -> 1 <= GetValue complexityLow x.
Proof. intro H. rewrite complexityLow_nodes. on_plateau. Qed.

Lemma complexityHigh_none (x : Q) : x <= 0.2 -> GetValue complexityHigh x <= 0.
Proof. intro H. rewrite complexityHigh_nodes. on_plateau. Qed.

Lemma complexityLow_none (x : Q) : 0.6 <= x -> GetValue complexityLow x <= 0.
Proof. intro H. rewrite complexityLow_nodes. on_plateau. Qed.

Lemma complexityHigh_full (x : Q) : 0.6 <= x -> 1 <= GetValue complexityHigh x.
Proof. intro H. rewrite complexityHigh_nodes. on_plateau. Qed.

Lemma std_min_nonpositive_r (a b : Q) : b <= 0 -> std_min a b <= 0.
Proof. intro H. unfold std_min. cases_on (Qltb b a); lra. Qed.

Lemma std_min_full (a b : Q) : 1 <= a -> 1 <= b -> 1 <= std_min a b.
Proof. intros Ha Hb. unfold std_min. now destruct (Qltb b a). Qed.

(** The factor computed from consequents of which one is unclipped and the
    others have no area. *)
Ltac one_rule_fires :=
  unfold DetermineOversamplingFactor;
  match goal with
  | |- context [Qeq_bool ?s (-1) || Qeq_bool ?c (-1)] =>
      cases_on (Qeq_bool s (-1)); [try contradiction; try lra|];
      cases_on (Qeq_bool c (-1)); [try contradiction; try lra|]
  end;
  cbn [orb]; f_equal;
  unfold factorOfConsequents, areaCentroidPairs, Consequents, ApplyRules;
  cbn [flat_map rule1_OversamplingVeryHighClippingValue
         rule2_OversamplingHighClippingValue
         rule3_OversamplingHighClippingValue
         rule4_OversamplingNormalClippingValue
         rule5_OversamplingNormalClippingValue
         rule6_OversamplingLowClippingValue].

Ltac unfired :=
  first
    [ apply sizeVerySmall_none_below; lra
    | apply sizeLarge_none_above; lra
    | apply std_min_nonpositive_l;
      first [ apply sizeSmall_none_below; lra
            | apply sizeSmall_none_above; lra
            | apply sizeMedium_none_below; lra
            | apply sizeMedium_none_above; lra ]
    | apply std_min_nonpositive_r;
      first [ apply complexityHigh_none; lra
            | apply complexityLow_none; lra ] ].

Ltac fired :=
  apply std_min_full;
  first [ apply sizeMedium_full; lra | apply sizeSmall_full; lra
        | apply complexityLow_full; lra | apply complexityHigh_full; lra ].

Ltac drop_unfired f s :=
  rewrite (unfired_rule_has_no_area f s); [| canonical_output | unfired ].

(** On the plateaus of the input functions one rule fires alone, at full
    strength.  A size measure in [2,2.5] (medium) or [3,3.25] (small) gives
    the factor 1 for a complexity measure of 0.2 or less, the sentinel
    apart, and the factor 2 for a complexity measure of 0.6 or more. *)
Theorem plateaus_decide_alone (relativeStructureSize complexityMeasure : Q) :
  (2 <= relativeStructureSize <= 2.5) \/ (3 <= relativeStructureSize <= 3.25) ->
  (complexityMeasure <= 0.2 -> ~ complexityMeasure == -1 ->
   DetermineOversamplingFactor relativeStructureSize complexityMeasure
   = (Num 1, []))
  /\ (0.6 <= complexityMeasure ->
      DetermineOversamplingFactor relativeStructureSize complexityMeasure
      = (Num 2, [])).
Proof.
  intros [[Hlo Hhi] | [Hlo Hhi]]; split.
  - intros Hc Hne. one_rule_fires.
    match goal with
    | |- context [ClipMembershipFunction oversamplingNormal
                    (std_min (GetValue sizeMedium ?x) ?low)] =>
        rewrite (ClipMembershipFunction_at_least_one
                   oversamplingNormal (std_min (GetValue sizeMedium x) low))
          by fired
    end.
    repeat match goal with
      | |- context [forEachSegment (ClipMembershipFunction ?f ?s)] =>
          drop_unfired f s
      end.
    vm_compute. reflexivity.
  - intros Hc. one_rule_fires.
    match goal with
    | |- context [ClipMembershipFunction oversamplingHigh
                    (std_min (GetValue sizeMedium ?x) ?high)] =>
        rewrite (ClipMembershipFunction_at_least_one
                   oversamplingHigh (std_min (GetValue sizeMedium x) high))
          by fired
    end.
    repeat match goal with
      | |- context [forEachSegment (ClipMembershipFunction ?f ?s)] =>
          drop_unfired f s
      end.
    vm_compute. reflexivity.
  - intros Hc Hne. one_rule_fires.
    match goal with
    | |- context [ClipMembershipFunction oversamplingNormal
                    (std_min (GetValue sizeSmall ?x) ?low)] =>
        rewrite (ClipMembershipFunction_at_least_one
                   oversamplingNormal (std_min (GetValue sizeSmall x) low))
          by fired
    end.
    repeat match goal with
      | |- context [forEachSegment (ClipMembershipFunction ?f ?s)] =>
          drop_unfired f s
      end.
    vm_compute. reflexivity.
  - intros Hc. one_rule_fires.
    match goal with
    | |- context [ClipMembershipFunction oversamplingHigh
                    (std_min (GetValue sizeSmall ?x) ?high)] =>
        rewrite (ClipMembershipFunction_at_least_one
                   oversamplingHigh (std_min (GetValue sizeSmall x) high))
          by fired
    end.
    repeat match goal with
      | |- context [forEachSegment (ClipMembershipFunction ?f ?s)] =>
          drop_unfired f s
      end.
    vm_compute. reflexivity.
Qed.

Lemma plateaus_decide_alone_witness :
  DetermineOversamplingFactor 2.25 0.1 = (Num 1, [])
  /\ DetermineOversamplingFactor 3.1 0.8 = (Num 2, []).
Proof.
  assert (Hmedium : 2 <= 2.25 <= 2.5 \/ 3 <= 2.25 <= 3.25)
    by (left; split; discriminate).
  assert (Hsmall : 2 <= 3.1 <= 2.5 \/ 3 <= 3.1 <= 3.25)
    by (right; split; discriminate).
  split.
  - apply (proj1 (plateaus_decide_alone 2.25 0.1 Hmedium)); discriminate.
  - apply (proj2 (plateaus_decide_alone 3.1 0.8 Hsmall)); discriminate.
Defined.

Lemma complexity_below_range (c : Q) :
  c <= 0.2 -> GetValue complexityLow c = 1 /\ GetValue complexityHigh c = 0.
Proof.
  intro H. rewrite complexityLow_nodes, complexityHigh_nodes.
  cbn [GetValue X Y].
  replace (Qle_bool c 0.2) with true by (symmetry; now apply Qle_bool_iff).
  now split.
Qed.

Lemma complexity_above_range (c : Q) :
  0.6 < c -> GetValue complexityLow c = 0 /\ GetValue complexityHigh c = 1.
Proof.
  intro H. rewrite complexityLow_nodes, complexityHigh_nodes.
  cbn [GetValue valueFrom X Y].
  replace (Qle_bool c 0.2) with false
    by (symmetry; apply Qle_bool_gt; lra).
  replace (Qle_bool c 0.6) with false
    by (symmetry; now apply Qle_bool_gt).
  now split.
Qed.

Lemma complexity_is_clamped (relativeStructureSize c c' : Q) :
  GetValue complexityLow c = GetValue complexityLow c' ->
  GetValue complexityHigh c = GetValue complexityHigh c' ->
  ~ c == -1 -> ~ c' == -1 ->
  DetermineOversamplingFactor relativeStructureSize c
  = DetermineOversamplingFactor relativeStructureSize c'.
Proof.
  intros Hlow Hhigh Hc Hc'. unfold DetermineOversamplingFactor.
  cases_on (Qeq_bool c (-1)); [contradiction|].
  cases_on (Qeq_bool c' (-1)); [contradiction|].
  destruct (Qeq_bool relativeStructureSize (-1)); [reflexivity|].
  cbn [orb]. unfold Consequents, ApplyRules. now rewrite Hlow, Hhigh.
Qed.

(** A complexity measure outside the range of its membership functions has
    no further influence: for a given size measure, any two complexity
    measures of 0.2 or less that are not the sentinel give the same
    result, and so do any two above 0.6. *)
Theorem complexity_beyond_range_is_ignored
  (relativeStructureSize complexityMeasure complexityMeasure' : Q) :
  (complexityMeasure <= 0.2 -> complexityMeasure' <= 0.2 ->
   ~ complexityMeasure == -1 -> ~ complexityMeasure' == -1 ->
   DetermineOversamplingFactor relativeStructureSize complexityMeasure
   = DetermineOversamplingFactor relativeStructureSize complexityMeasure')
  /\ (0.6 < complexityMeasure -> 0.6 < complexityMeasure' ->
      DetermineOversamplingFactor relativeStructureSize complexityMeasure
      = DetermineOversamplingFactor relativeStructureSize complexityMeasure').
Proof.
  split.
  - intros H H' Hne Hne'.
    destruct (complexity_below_range _ H) as [Hlow Hhigh].
    destruct (complexity_below_range _ H') as [Hlow' Hhigh'].
    apply complexity_is_clamped; congruence.
  - intros H H'.
    destruct (complexity_above_range _ H) as [Hlow Hhigh].
    destruct (complexity_above_range _ H') as [Hlow' Hhigh'].
    apply complexity_is_clamped; try congruence; lra.
Qed.

Lemma complexity_beyond_range_is_ignored_witness :
  DetermineOversamplingFactor 2.8 0 = DetermineOversamplingFactor 2.8 0.15
  /\ DetermineOversamplingFactor 2.8 0.7 = DetermineOversamplingFactor 2.8 3.
Proof.
  split.
  - apply (proj1 (complexity_beyond_range_is_ignored 2.8 0 0.15));
      discriminate.
  - apply (proj2 (complexity_beyond_range_is_ignored 2.8 0.7 3));
      reflexivity.
Defined.
